(** * The line-chart cursor of react-native-wagmi-charts

    A shallow embedding of [src/charts/line/Cursor.tsx]: the nearest-index
    search [findClosestIndex], the curve-index fix-up of
    [linearScalePositionAndIndex] and the gesture handlers [onActive] and
    [onEnd], followed by the properties the specification states about
    them.

    Numbers.  The value of a JavaScript number is modelled as a rational
    ([Q]).  Comparisons of finite numbers are exact in binary64, so the
    order of [Q] is the order the code observes.  The value [undefined]
    that an out-of-range array read produces, and the [NaN] that arithmetic
    on it produces, are both modelled as [None]: every comparison with
    either of them is false, which is all the code observes.  The elements
    of a number array are real numbers: an array that holds [NaN] is
    outside the model.  Array indices and the published index are integers
    ([Z]), since [right] starts at [length - 1] and the sentinel index is
    [-1].

    Arithmetic.  The engine rounds every arithmetic result to binary64.
    Module [Binary64] defines that rounding on [Q], and
    [Binary64.findClosestIndex] is the search with the two subtractions of
    its last step rounded that way.  [findClosestIndex], [scaleInvert] and
    [boundedIndex] compute with the exact results instead; they differ
    from the engine only where a rounding carries a value across a
    comparison or across a half-integer. *)

From Equations Require Import Equations.
From Stdlib Require Import List ZArith QArith Qabs Qround Qminmax Lia Lqa Bool.
Import ListNotations.

Local Open Scope Z_scope.

(** ** JavaScript numbers *)

Module Num.

(** [None] is [undefined] or [NaN]. *)
Definition t : Type := option Q.

Definition le (a b : t) : bool :=
  match a, b with
  | Some p, Some q => Qle_bool p q
  | _, _ => false
  end.

Definition ge (a b : t) : bool := le b a.

Definition lt (a b : t) : bool :=
  match a, b with
  | Some p, Some q => negb (Qle_bool q p)
  | _, _ => false
  end.

(** Strict equality [===] of two values that are numbers or [undefined];
    the code only compares an array read with the query, which is a
    number, so [undefined === undefined] never arises. *)
Definition eq (a b : t) : bool :=
  match a, b with
  | Some p, Some q => Qeq_bool p q
  | _, _ => false
  end.

(** The exact difference; [Binary64.sub] is the rounded one. *)
Definition sub (a b : t) : t :=
  match a, b with
  | Some p, Some q => Some (p - q)%Q
  | _, _ => None
  end.

Definition abs (a : t) : t := option_map Qabs a.

End Num.

(** [timestamps[i]]: [undefined] outside the array. *)
Definition get (timestamps : list Q) (i : Z) : Num.t :=
  if i <? 0 then None else nth_error timestamps (Z.to_nat i).

(** ** findClosestIndex *)

(** How the [while] loop is left: by its [return mid], or by its condition
    failing with the final values of [left] and [right]. *)
Inductive loop_exit : Type :=
| Return (mid : Z)
| Fallthrough (left right : Z).

(** The [while (left <= right)] loop, started with [left = lo] and
    [right = hi] (the names [left] and [right] are constructors in Rocq and
    cannot be bound by an equation).  Each iteration strictly shrinks
    [right - left + 1], which is the measure of the recursion. *)
Equations? search (timestamps : list Q) (xRelative : Num.t) (lo hi : Z)
  : loop_exit by wf (Z.to_nat (hi - lo + 1)) lt :=
  search timestamps xRelative lo hi with Z_le_gt_dec lo hi := {
    | right _ => Fallthrough lo hi
    | left _ =>
        let mid := (lo + hi) / 2 in
        if Num.eq (get timestamps mid) xRelative then Return mid
        else if Num.lt (get timestamps mid) xRelative
             then search timestamps xRelative (mid + 1) hi
             else search timestamps xRelative lo (mid - 1) }.
Proof.
  all: assert (lo <= (lo + hi) / 2 <= hi)
    by (split; [apply Z.div_le_lower_bound | apply Z.div_le_upper_bound]; lia);
    lia.
Qed.

Definition findClosestIndex (timestamps : list Q) (xRelative : Num.t) : Z :=
  let left := 0 in
  let right := Z.of_nat (length timestamps) - 1 in
  if Num.le xRelative (get timestamps left) then left
  else if Num.ge xRelative (get timestamps right) then right
  else
    match search timestamps xRelative left right with
    | Return mid => mid
    | Fallthrough lo hi =>
        let left := lo in
        let right := hi in
        let leftDiff := Num.abs (Num.sub (get timestamps left) xRelative) in
        let rightDiff := Num.abs (Num.sub (get timestamps right) xRelative) in
        if Num.le leftDiff rightDiff then left else right
    end.


(** *** The same code, recording every array index it reads

    [search_reads] and [findClosestIndex_reads] follow [search] and
    [findClosestIndex] statement by statement and return, next to the
    result, the indices of the reads [timestamps[...]] in program order. *)



(** *** The last step in binary64

    [Binary64.round] is IEEE 754 binary64 rounding of a real number, to
    nearest with ties to even.  The magnitude is scaled by [2^1074], so
    that the smallest subnormal number is [1] and every binary64 number an
    integer; the unit in the last place of a scaled magnitude [s] is
    [2 ^ max(0, floor(log2 s) - 52)].  Overflow to [Infinity] is
    represented by [2^1024], which lies above every finite binary64 number
    and which [Math.abs] and [<=], the only operations the code applies to
    a difference, treat as they treat [Infinity]. *)
Module Binary64.

Definition scale : Z := 2 ^ 1074.

(** To the nearest integer, a half to the even neighbour. *)
Definition nearest_even (x : Q) : Z :=
  let f := Qfloor x in
  match Qcompare (x - inject_Z f) (1 # 2) with
  | Lt => f
  | Gt => f + 1
  | Eq => if Z.even f then f else f + 1
  end.

(** The rounding of a magnitude [a >= 0]. *)
Definition magnitude (a : Q) : Q :=
  let s := (a * inject_Z scale)%Q in
  let ulp := 2 ^ Z.max 0 (Z.log2 (Qfloor s) - 52) in
  let m := nearest_even (s / inject_Z ulp) in
  (inject_Z (Z.min (m * ulp) (2 ^ 2098)) / inject_Z scale)%Q.

Definition round (q : Q) : Q :=
  if Qle_bool 0 q then magnitude q else (- magnitude (- q))%Q.

(** [a - b] as the engine computes it. *)
Definition sub (a b : Num.t) : Num.t :=
  match a, b with
  | Some p, Some q => Some (round (p - q))
  | _, _ => None
  end.

(** [findClosestIndex], lines 31-68, with the subtractions of lines 60 and
    61 rounded. *)
Definition findClosestIndex (timestamps : list Q) (xRelative : Num.t) : Z :=
  let left := 0 in
  let right := Z.of_nat (length timestamps) - 1 in
  if Num.le xRelative (get timestamps left) then left
  else if Num.ge xRelative (get timestamps right) then right
  else
    match search timestamps xRelative left right with
    | Return mid => mid
    | Fallthrough lo hi =>
        let left := lo in
        let right := hi in
        let leftDiff := Num.abs (sub (get timestamps left) xRelative) in
        let rightDiff := Num.abs (sub (get timestamps right) xRelative) in
        if Num.le leftDiff rightDiff then left else right
    end.

End Binary64.

(** ** The curve-index fix-up and linearScalePositionAndIndex *)

(** The parts of react-native-redash's [Path] that the cursor reads. *)
Module Redash.

Record Vector : Type := { x : Q; y : Q }.

(** A cubic segment of a parsed path; only its end point [to] is read. *)
Record Curve : Type := { c1 : Vector; c2 : Vector; to : Vector }.

Record Path : Type := { move : Vector; curves : list Curve; close : bool }.

End Redash.

(** [closestPathCurve], as a function of [closestIndex],
    [path.curves.length] and [timestamps.length]. *)
Definition closestPathCurve (closestIndex curvesLength timestampsLength : Z) : Z :=
  let pathDataDelta := Z.abs (curvesLength - timestampsLength) in
  Z.max (Z.min closestIndex (curvesLength + 1) - pathDataDelta) 0.

(** Modelled from the spec: [scaleLinear().domain(d).range([0, width]).invert]
    belongs to d3-scale, which is not part of this repository; the
    specification gives it as
    [domain.min + (pixelOffset / width) * (domain.max - domain.min)].
    A zero width makes the quotient [0 / 0] in the only caller (which has
    clamped the offset into [[0, width]]), hence [NaN], the undefined value
    that the specification gives for it.  The formula is evaluated exactly.
    The theorems below hold whatever value it returns; only the example
    [late_js_call_writes_index] evaluates it. *)
Definition scaleInvert (domain : Q * Q) (width : Q) (pixelOffset : Q) : Num.t :=
  if Qeq_bool width 0 then None
  else Some (fst domain + (pixelOffset / width) * (snd domain - fst domain))%Q.

(** The published shared values, and the calls handed to [runOnJS] that the
    JS thread has not run yet. *)
Record JsCall : Type := {
  call_timestamps : list Q;
  call_width : Q;
  call_xPosition : Q;
  call_path : option Redash.Path;
  call_xDomain : option (Q * Q)
}.

(** [currentIndex] is an integer or, when the arithmetic of [onActive]
    yields [NaN], [None]. *)
Record Shared : Type := {
  currentX : Q;
  currentIndex : option Z;
  isActive : bool;
  pending : list JsCall
}.

Definition set_currentX (v : Q) (s : Shared) : Shared :=
  {| currentX := v; currentIndex := currentIndex s;
     isActive := isActive s; pending := pending s |}.

Definition set_currentIndex (v : option Z) (s : Shared) : Shared :=
  {| currentX := currentX s; currentIndex := v;
     isActive := isActive s; pending := pending s |}.

Definition set_isActive (v : bool) (s : Shared) : Shared :=
  {| currentX := currentX s; currentIndex := currentIndex s;
     isActive := v; pending := pending s |}.

Definition set_pending (v : list JsCall) (s : Shared) : Shared :=
  {| currentX := currentX s; currentIndex := currentIndex s;
     isActive := isActive s; pending := v |}.

(** [path.curves[i]]: [undefined] outside the array. *)
Definition curve_at (p : Redash.Path) (i : Z) : option Redash.Curve :=
  if i <? 0 then None else nth_error (Redash.curves p) (Z.to_nat i).

(** [linearScalePositionAndIndex]; [None] is the [TypeError] raised by
    reading [.to] of an [undefined] curve, which happens before the write
    to [currentIndex]. *)
Definition linearScalePositionAndIndex (c : JsCall) (s : Shared) : option Shared :=
  match call_path c with
  | None => Some s
  | Some path =>
      let timestamps := call_timestamps c in
      let domainArray :=
        match call_xDomain c with
        | Some d => d
        | None => (0%Q, inject_Z (Z.of_nat (length timestamps)))
        end in
      let xRelative := scaleInvert domainArray (call_width c) (call_xPosition c) in
      let closestIndex := findClosestIndex timestamps xRelative in
      let closestPathCurve :=
        closestPathCurve closestIndex (Z.of_nat (length (Redash.curves path)))
                         (Z.of_nat (length timestamps)) in
      let p0 :=
        if 0 <? closestIndex
        then option_map (fun c => Redash.x (Redash.to c)) (curve_at path closestPathCurve)
        else Some (Redash.x (Redash.move path)) in
      match p0 with
      | None => None
      | Some _ => Some (set_currentIndex (Some closestIndex) s)
      end
  end.

(** ** The gesture handlers *)

Record Datum : Type := { timestamp : Q; value : Q }.

(** What a render of [LineChartCursor] closes over. *)
Record Props : Type := {
  width : Q;
  parsedPath : option Redash.Path;
  snapToPoint : bool;
  data : list Datum;
  xDomain : option (Q * Q)
}.

(** [Array.prototype.map] with the element index, counting from [i]. *)
Fixpoint mapi_from {A B : Type} (f : A -> Z -> B) (i : Z) (l : list A) : list B :=
  match l with
  | [] => []
  | a :: l' => f a i :: mapi_from f (i + 1) l'
  end.

Definition xValues (p : Props) : list Q :=
  mapi_from (fun d i => match xDomain p with
                        | Some _ => timestamp d
                        | None => inject_Z i
                        end) 0 (data p).

(** [Math.round]: to the nearest integer, halves upwards. *)
Definition round (q : Q) : Z := Qfloor (q + (1 # 2)).

(** [boundedIndex].  [xPosition] is [0] whenever [width <= 0], so a zero
    width gives [0 / 0], and [NaN] all the way through [Math.max].  With a
    single datum the divisor [1 / (data.length - 1)] is infinite and the
    quotient is [0]; division by zero in [Q] gives that same [0].  The
    quotients are exact here and rounded in the engine, which can give the
    neighbouring index when the exact quotient is within a rounding of a
    half-integer; the
    bounds and the order of the index, which is what is stated about it
    below, are the same. *)
Definition boundedIndex (p : Props) (xPosition : Q) : option Z :=
  let minIndex := 0 in
  if Qeq_bool (width p) 0 then None
  else Some (Z.max minIndex
               (round (xPosition / width p
                       / (1 / inject_Z (Z.of_nat (length (data p)) - 1))))).

Definition onActive (p : Props) (x : Q) (s : Shared) : Shared :=
  match parsedPath p with
  | None => s
  | Some path =>
      let xPosition := Qmax 0 (if Qle_bool x (width p) then x else width p) in
      let s := set_isActive true s in
      if snapToPoint p then
        let call := {| call_timestamps := xValues p;
                       call_width := width p;
                       call_xPosition := xPosition;
                       call_path := Some path;
                       call_xDomain := xDomain p |} in
        let s := set_pending (pending s ++ [call]) s in
        set_currentX xPosition s
      else
        let s := set_currentX xPosition s in
        set_currentIndex (boundedIndex p xPosition) s
  end.

Definition onEnd (s : Shared) : Shared :=
  let s := set_isActive false s in
  set_currentIndex (Some (-1)) s.

(** A turn of the JS thread: it runs one of the calls handed to [runOnJS]
    and not run yet, the one at position [k] among those waiting.  Which
    call it takes next is decided by the scheduler of
    react-native-reanimated, outside this repository, so every position is
    allowed.  A call that throws leaves the shared values as they were. *)
Definition runJs (k : nat) (s : Shared) : Shared :=
  match nth_error (pending s) k with
  | None => s
  | Some call =>
      let s := set_pending (firstn k (pending s) ++ skipn (S k) (pending s)) s in
      match linearScalePositionAndIndex call s with
      | Some s' => s'
      | None => s
      end
  end.

Inductive Event : Type :=
| Active (x : Q)
| End
| JsTurn (k : nat).

Definition handle (p : Props) (e : Event) (s : Shared) : Shared :=
  match e with
  | Active x => onActive p x s
  | End => onEnd s
  | JsTurn k => runJs k s
  end.

(** The events of a list, oldest first. *)
Definition run (p : Props) (events : list Event) (s : Shared) : Shared :=
  fold_left (fun s e => handle p e s) events s.

(** ** Vocabulary of the specification *)

(** Ascending order, duplicates allowed: each key is at most the next. *)
Fixpoint ascendingb (keys : list Q) : bool :=
  match keys with
  | a :: (b :: _) as rest => Qle_bool a b && ascendingb rest
  | _ => true
  end.

Definition ascending (keys : list Q) : Prop := ascendingb keys = true.

(** Strictly ascending: no duplicates. *)
Fixpoint strictly_ascendingb (keys : list Q) : bool :=
  match keys with
  | a :: (b :: _) as rest => negb (Qle_bool b a) && strictly_ascendingb rest
  | _ => true
  end.

Definition strictly_ascending (keys : list Q) : Prop :=
  strictly_ascendingb keys = true.

(** The index of the last key. *)
Definition last_index (keys : list Q) : Z := Z.of_nat (length keys) - 1.

(** [clamp(v, lo, hi)] as the specification's formula for the segment index
    uses it. *)
Definition clamp (v lo hi : Z) : Z := Z.min (Z.max v lo) hi.

(** Every key left of [l] is below the query; every key right of [r] is
    above it. *)
Definition below (keys : list Q) (q : Q) (l : Z) : Prop :=
  forall i k, i < l -> get keys i = Some k -> (k < q)%Q.

Definition above (keys : list Q) (q : Q) (r : Z) : Prop :=
  forall i k, r < i -> get keys i = Some k -> (q < k)%Q.

(** The four ways in which [findClosestIndex] returns [res] for a real
    query [q]: the two guards, the exact match inside the loop, and the
    distance comparison after it. *)
Inductive located (keys : list Q) (q : Q) (res : Z) : Prop :=
| at_first k0 :
    get keys 0 = Some k0 -> (q <= k0)%Q ->
    res = 0 ->
    located keys q res
| at_last k0 kn :
    get keys 0 = Some k0 -> get keys (last_index keys) = Some kn ->
    (k0 < q)%Q -> (kn <= q)%Q ->
    res = last_index keys ->
    located keys q res
| at_exact k0 kn km :
    get keys 0 = Some k0 -> get keys (last_index keys) = Some kn ->
    (k0 < q)%Q -> (q < kn)%Q ->
    search keys (Some q) 0 (last_index keys) = Return res ->
    get keys res = Some km -> (km == q)%Q ->
    located keys q res
| at_gap k0 kn l r kl kr :
    get keys 0 = Some k0 -> get keys (last_index keys) = Some kn ->
    (k0 < q)%Q -> (q < kn)%Q ->
    search keys (Some q) 0 (last_index keys) = Fallthrough l r ->
    l = r + 1 ->
    get keys l = Some kl -> get keys r = Some kr ->
    below keys q l -> above keys q r ->
    res = (if Qle_bool (Qabs (kl - q)) (Qabs (kr - q)) then l else r) ->
    located keys q res.

(** The same four ways for [Binary64.findClosestIndex]; the last one
    compares the rounded distances. *)
Inductive located64 (keys : list Q) (q : Q) (res : Z) : Prop :=
| at_first64 k0 :
    get keys 0 = Some k0 -> (q <= k0)%Q ->
    res = 0 ->
    located64 keys q res
| at_last64 k0 kn :
    get keys 0 = Some k0 -> get keys (last_index keys) = Some kn ->
    (k0 < q)%Q -> (kn <= q)%Q ->
    res = last_index keys ->
    located64 keys q res
| at_exact64 k0 kn km :
    get keys 0 = Some k0 -> get keys (last_index keys) = Some kn ->
    (k0 < q)%Q -> (q < kn)%Q ->
    search keys (Some q) 0 (last_index keys) = Return res ->
    get keys res = Some km -> (km == q)%Q ->
    located64 keys q res
| at_gap64 k0 kn l r kl kr :
    get keys 0 = Some k0 -> get keys (last_index keys) = Some kn ->
    (k0 < q)%Q -> (q < kn)%Q ->
    search keys (Some q) 0 (last_index keys) = Fallthrough l r ->
    l = r + 1 ->
    get keys l = Some kl -> get keys r = Some kr ->
    below keys q l -> above keys q r ->
    res = (if Qle_bool (Qabs (Binary64.round (kl - q)))
                       (Qabs (Binary64.round (kr - q)))
           then l else r) ->
    located64 keys q res.

(** The index that [linearScalePositionAndIndex] computes for a call: the
    inverted scale at [xPosition], located among [timestamps]. *)
Definition call_closestIndex (c : JsCall) : Z :=
  let timestamps := call_timestamps c in
  let domainArray :=
    match call_xDomain c with
    | Some d => d
    | None => (0%Q, inject_Z (Z.of_nat (length timestamps)))
    end in
  findClosestIndex timestamps
    (scaleInvert domainArray (call_width c) (call_xPosition c)).


(** * Properties *)

(** ** Array reads *)

Lemma get_Some_range keys i k :
  get keys i = Some k -> 0 <= i < Z.of_nat (length keys).
Proof.
  unfold get. destruct (Z.ltb_spec i 0); [discriminate|].
  intros E. assert (Z.to_nat i < length keys)%nat.
  { apply nth_error_Some. congruence. }
  lia.
Qed.

Lemma get_in_range keys i :
  0 <= i < Z.of_nat (length keys) -> exists k, get keys i = Some k.
Proof.
  intros Hi. unfold get. destruct (Z.ltb_spec i 0); [lia|].
  destruct (nth_error keys (Z.to_nat i)) eqn:E; [eauto|].
  apply nth_error_None in E. lia.
Qed.

Lemma get_cons a keys i :
  0 <= i -> get (a :: keys) (i + 1) = get keys i.
Proof.
  intros Hi. unfold get.
  destruct (Z.ltb_spec (i + 1) 0); [lia|].
  destruct (Z.ltb_spec i 0); [lia|].
  replace (Z.to_nat (i + 1)) with (S (Z.to_nat i)) by lia. reflexivity.
Qed.

Lemma get_head a keys : get (a :: keys) 0 = Some a.
Proof. reflexivity. Qed.

(** ** Ascending sequences *)

Lemma ascendingb_tail a keys : ascendingb (a :: keys) = true -> ascendingb keys = true.
Proof.
  destruct keys as [|b keys]; [reflexivity|].
  cbn [ascendingb]. intros H. apply andb_true_iff in H. tauto.
Qed.

Lemma ascendingb_head_le a keys n b :
  ascendingb (a :: keys) = true -> nth_error keys n = Some b -> (a <= b)%Q.
Proof.
  revert a n. induction keys as [|c keys IH]; intros a n H E.
  - destruct n; discriminate.
  - cbn [ascendingb] in H. apply andb_true_iff in H. destruct H as [Hac Hrest].
    apply Qle_bool_iff in Hac.
    destruct n as [|n]; cbn in E.
    + injection E as <-. exact Hac.
    + apply Qle_trans with c; [exact Hac|]. eapply IH; eauto.
Qed.

Lemma ascendingb_nth keys n m a b :
  ascendingb keys = true -> (n <= m)%nat ->
  nth_error keys n = Some a -> nth_error keys m = Some b -> (a <= b)%Q.
Proof.
  revert n m. induction keys as [|c keys IH]; intros n m H Hnm En Em.
  - destruct n; discriminate.
  - destruct n as [|n], m as [|m]; cbn in En, Em; try lia.
    + injection En as <-. injection Em as <-. apply Qle_refl.
    + injection En as <-. eapply ascendingb_head_le; eauto.
    + apply (IH n m); eauto using ascendingb_tail. lia.
Qed.

Lemma ascending_get keys i j a b :
  ascending keys -> i <= j ->
  get keys i = Some a -> get keys j = Some b -> (a <= b)%Q.
Proof.
  unfold ascending, get. intros H Hij.
  destruct (Z.ltb_spec i 0); [discriminate|].
  destruct (Z.ltb_spec j 0); [discriminate|].
  apply ascendingb_nth; [exact H | lia].
Qed.

Lemma strictly_ascendingb_tail a keys :
  strictly_ascendingb (a :: keys) = true -> strictly_ascendingb keys = true.
Proof.
  destruct keys as [|b keys]; [reflexivity|].
  cbn [strictly_ascendingb]. intros H. apply andb_true_iff in H. tauto.
Qed.

Lemma Qle_bool_false p q : Qle_bool p q = false <-> (q < p)%Q.
Proof.
  split; intros H.
  - apply Qnot_le_lt. intros L. apply Qle_bool_iff in L. congruence.
  - destruct (Qle_bool p q) eqn:E; [|reflexivity].
    apply Qle_bool_iff in E. exfalso. lra.
Qed.

Lemma strictly_ascendingb_head_lt a keys n b :
  strictly_ascendingb (a :: keys) = true -> nth_error keys n = Some b -> (a < b)%Q.
Proof.
  revert a n. induction keys as [|c keys IH]; intros a n H E.
  - destruct n; discriminate.
  - cbn [strictly_ascendingb] in H. apply andb_true_iff in H. destruct H as [Hac Hrest].
    apply negb_true_iff, Qle_bool_false in Hac.
    destruct n as [|n]; cbn in E.
    + injection E as <-. exact Hac.
    + apply Qlt_trans with c; [exact Hac|]. eapply IH; eauto.
Qed.

Lemma strictly_ascendingb_nth keys n m a b :
  strictly_ascendingb keys = true -> (n < m)%nat ->
  nth_error keys n = Some a -> nth_error keys m = Some b -> (a < b)%Q.
Proof.
  revert n m. induction keys as [|c keys IH]; intros n m H Hnm En Em.
  - destruct n; discriminate.
  - destruct n as [|n], m as [|m]; cbn in En, Em; try lia.
    + injection En as <-. eapply strictly_ascendingb_head_lt; eauto.
    + apply (IH n m); eauto using strictly_ascendingb_tail. lia.
Qed.

Lemma strictly_ascending_get keys i j a b :
  strictly_ascending keys -> i < j ->
  get keys i = Some a -> get keys j = Some b -> (a < b)%Q.
Proof.
  unfold strictly_ascending, get. intros H Hij.
  destruct (Z.ltb_spec i 0); [discriminate|].
  destruct (Z.ltb_spec j 0); [discriminate|].
  apply strictly_ascendingb_nth; [exact H | lia].
Qed.

Lemma strictly_ascending_ascending keys :
  strictly_ascending keys -> ascending keys.
Proof.
  unfold strictly_ascending, ascending.
  induction keys as [|a [|b keys] IH]; try reflexivity.
  cbn [strictly_ascendingb ascendingb]. intros H.
  apply andb_true_iff in H. destruct H as [Hab Hrest].
  apply negb_true_iff, Qle_bool_false in Hab.
  apply andb_true_iff. split; [apply Qle_bool_iff; lra | auto].
Qed.

(** ** The binary-search loop *)

Lemma mid_bounds lo hi : lo <= hi -> lo <= (lo + hi) / 2 <= hi.
Proof.
  intros H. split; [apply Z.div_le_lower_bound | apply Z.div_le_upper_bound]; lia.
Qed.

(** The loop satisfies the equation of the [while] statement. *)
Lemma search_while keys x lo hi :
  search keys x lo hi =
  if lo <=? hi then
    let mid := (lo + hi) / 2 in
    if Num.eq (get keys mid) x then Return mid
    else if Num.lt (get keys mid) x
         then search keys x (mid + 1) hi
         else search keys x lo (mid - 1)
  else Fallthrough lo hi.
Proof.
  simp search. destruct (Z_le_gt_dec lo hi); cbn;
    destruct (Z.leb_spec lo hi); try lia; reflexivity.
Qed.


Lemma below_extend keys q l m km :
  ascending keys -> get keys m = Some km -> (km < q)%Q -> below keys q l ->
  below keys q (m + 1).
Proof.
  intros Hasc Hm Hlt _ i k Hi Hk.
  apply Qle_lt_trans with km; [|exact Hlt].
  apply (ascending_get keys i m); auto. lia.
Qed.

Lemma above_extend keys q r m km :
  ascending keys -> get keys m = Some km -> (q < km)%Q -> above keys q r ->
  above keys q (m - 1).
Proof.
  intros Hasc Hm Hlt _ i k Hi Hk.
  apply Qlt_le_trans with km; [exact Hlt|].
  apply (ascending_get keys m i); auto. lia.
Qed.

Lemma Num_eq_Some p q : Num.eq (Some p) (Some q) = true <-> (p == q)%Q.
Proof. apply Qeq_bool_iff. Qed.

Lemma Num_lt_Some p q : Num.lt (Some p) (Some q) = true <-> (p < q)%Q.
Proof.
  cbn. rewrite negb_true_iff. apply Qle_bool_false.
Qed.

Lemma Num_le_Some p q : Num.le (Some p) (Some q) = true <-> (p <= q)%Q.
Proof. apply Qle_bool_iff. Qed.

(** The invariant of the loop and what it gives at either exit. *)
Lemma search_spec keys q :
  ascending keys ->
  forall n lo hi,
    Z.to_nat (hi - lo + 1) = n ->
    0 <= lo -> hi <= last_index keys -> lo <= hi + 1 ->
    below keys q lo -> above keys q hi ->
    match search keys (Some q) lo hi with
    | Return mid =>
        lo <= mid <= hi /\ exists k, get keys mid = Some k /\ (k == q)%Q
    | Fallthrough l r =>
        l = r + 1 /\ lo <= l /\ r <= hi /\ below keys q l /\ above keys q r
    end.
Proof.
  intros Hasc n. induction n as [n IH] using lt_wf_ind.
  intros lo hi Hn Hlo Hhi Hle Hb Ha.
  rewrite search_while. destruct (Z.leb_spec lo hi) as [L|L].
  2:{ repeat split; auto; lia. }
  cbv zeta. pose proof (mid_bounds lo hi L) as Hmid.
  set (mid := (lo + hi) / 2) in *.
  destruct (get_in_range keys mid) as [km Hkm].
  { unfold last_index in Hhi. lia. }
  rewrite Hkm.
  destruct (Num.eq (Some km) (Some q)) eqn:Eeq.
  { apply Num_eq_Some in Eeq. split; [lia|]. eauto. }
  destruct (Num.lt (Some km) (Some q)) eqn:Elt.
  - apply Num_lt_Some in Elt.
    specialize (IH (Z.to_nat (hi - (mid + 1) + 1)) ltac:(lia) (mid + 1) hi
                   eq_refl ltac:(lia) Hhi ltac:(lia)
                   (below_extend keys q lo mid km Hasc Hkm Elt Hb) Ha).
    destruct (search keys (Some q) (mid + 1) hi) as [m|l r].
    + destruct IH as [? ?]. split; [lia | assumption].
    + destruct IH as (? & ? & ? & ? & ?). repeat split; auto; lia.
  - assert (q < km)%Q as Hgt.
    { apply not_true_iff_false in Eeq, Elt.
      rewrite Num_eq_Some in Eeq. rewrite Num_lt_Some in Elt.
      destruct (Q_dec km q) as [[?|?]|?]; tauto. }
    specialize (IH (Z.to_nat ((mid - 1) - lo + 1)) ltac:(lia) lo (mid - 1)
                   eq_refl Hlo ltac:(lia) ltac:(lia)
                   Hb (above_extend keys q hi mid km Hasc Hkm Hgt Ha)).
    destruct (search keys (Some q) lo (mid - 1)) as [m|l r].
    + destruct IH as [? ?]. split; [lia | assumption].
    + destruct IH as (? & ? & ? & ? & ?). repeat split; auto; lia.
Qed.

(** ** The return paths of findClosestIndex *)

Lemma nonempty_length (keys : list Q) : keys <> [] -> 0 <= last_index keys.
Proof.
  unfold last_index. destruct keys; [congruence | cbn [length]; lia].
Qed.

Lemma below_0 keys q : below keys q 0.
Proof. intros i k Hi Hk. apply get_Some_range in Hk. lia. Qed.

Lemma above_last keys q : above keys q (last_index keys).
Proof.
  intros i k Hi Hk. apply get_Some_range in Hk. unfold last_index in Hi. lia.
Qed.

Lemma findClosestIndex_located keys q :
  keys <> [] -> ascending keys ->
  located keys q (findClosestIndex keys (Some q)).
Proof.
  intros Hne Hasc. pose proof (nonempty_length keys Hne) as Hlast.
  destruct (get_in_range keys 0) as [k0 Hk0]; [unfold last_index in *; lia|].
  destruct (get_in_range keys (last_index keys)) as [kn Hkn];
    [unfold last_index in *; lia|].
  unfold findClosestIndex. fold (last_index keys). cbv zeta.
  rewrite Hk0, Hkn. unfold Num.ge.
  destruct (Num.le (Some q) (Some k0)) eqn:E0.
  { apply Num_le_Some in E0. eapply at_first; eauto. }
  apply Qle_bool_false in E0.
  destruct (Num.le (Some kn) (Some q)) eqn:En.
  { apply Num_le_Some in En. eapply at_last; eauto. }
  apply Qle_bool_false in En.
  pose proof (search_spec keys q Hasc _ 0 (last_index keys) eq_refl
                ltac:(lia) ltac:(lia) ltac:(lia)
                (below_0 keys q) (above_last keys q)) as S.
  destruct (search keys (Some q) 0 (last_index keys)) as [mid|l r] eqn:Es.
  - destruct S as (Hr & km & Hkm & Heq). eapply at_exact; eauto.
  - destruct S as (Hlr & Hl & Hr & Hb & Ha).
    assert (l <= last_index keys) as Hl'.
    { destruct (Z_le_gt_dec l (last_index keys)); [assumption|].
      specialize (Hb (last_index keys) kn ltac:(lia) Hkn). lra. }
    assert (0 <= r) as Hr'.
    { destruct (Z_le_gt_dec 0 r); [assumption|].
      specialize (Ha 0 k0 ltac:(lia) Hk0). lra. }
    destruct (get_in_range keys l) as [kl Hkl]; [unfold last_index in *; lia|].
    destruct (get_in_range keys r) as [kr Hkr]; [unfold last_index in *; lia|].
    rewrite Hkl, Hkr. cbn [Num.sub Num.abs option_map Num.le].
    eapply at_gap; eauto.
Qed.

(** ** Distances *)

Lemma Qabs_diff_below (a q : Q) : (a <= q)%Q -> (Qabs (a - q) == q - a)%Q.
Proof. intros H. rewrite Qabs_neg; lra. Qed.

Lemma Qabs_diff_above (a q : Q) : (q <= a)%Q -> (Qabs (a - q) == a - q)%Q.
Proof. intros H. rewrite Qabs_pos; lra. Qed.

(** In a gap [keys[r] < q < keys[l]], [l = r + 1], every key is at least
    as far from the query as the end of the gap on its side. *)
Lemma gap_nearest keys q l r kl kr j kj :
  ascending keys -> l = r + 1 ->
  get keys l = Some kl -> get keys r = Some kr ->
  below keys q l -> above keys q r ->
  get keys j = Some kj ->
  ((l <= j /\ (Qabs (kl - q) <= Qabs (kj - q))%Q) \/
   (j <= r /\ (Qabs (kr - q) <= Qabs (kj - q))%Q))
  /\ (kr < q)%Q /\ (q < kl)%Q.
Proof.
  intros Hasc Hlr Hl Hr Hb Ha Hj.
  pose proof (Hb r kr ltac:(lia) Hr) as Hkr.
  pose proof (Ha l kl ltac:(lia) Hl) as Hkl.
  split; [|split; assumption].
  destruct (Z_le_gt_dec l j) as [Hlj|Hlj].
  - left. split; [assumption|].
    pose proof (ascending_get keys l j kl kj Hasc Hlj Hl Hj).
    rewrite !Qabs_diff_above; lra.
  - right. split; [lia|].
    pose proof (ascending_get keys j r kj kr Hasc ltac:(lia) Hj Hr).
    rewrite !Qabs_diff_below; lra.
Qed.

(** ** Binary64 rounding *)

Lemma nearest_even_bounds x :
  Qfloor x <= Binary64.nearest_even x <= Qfloor x + 1.
Proof.
  unfold Binary64.nearest_even. cbv zeta.
  destruct (Qcompare _ _); [destruct (Z.even _)| |]; lia.
Qed.

Lemma nearest_even_inject_Z z : Binary64.nearest_even (inject_Z z) = z.
Proof.
  unfold Binary64.nearest_even. cbv zeta. rewrite Qfloor_Z.
  destruct (Qcompare_spec (inject_Z z - inject_Z z) (1 # 2)) as [X|X|X];
    [exfalso; lra | reflexivity | exfalso; lra].
Qed.

Lemma nearest_even_monotone x y :
  (x <= y)%Q -> Binary64.nearest_even x <= Binary64.nearest_even y.
Proof.
  intros H. pose proof (Qfloor_resp_le x y H) as F.
  destruct (Z.eq_dec (Qfloor x) (Qfloor y)) as [E|E].
  - unfold Binary64.nearest_even. cbv zeta. rewrite E.
    destruct (Qcompare_spec (x - inject_Z (Qfloor y)) (1 # 2)) as [X|X|X];
      destruct (Qcompare_spec (y - inject_Z (Qfloor y)) (1 # 2)) as [Y|Y|Y];
      try destruct (Z.even (Qfloor y)); try lia; exfalso; lra.
  - pose proof (nearest_even_bounds x). pose proof (nearest_even_bounds y). lia.
Qed.

Lemma scale_pos : 0 < Binary64.scale.
Proof. unfold Binary64.scale. apply Z.pow_pos_nonneg; lia. Qed.

Lemma inject_Z_pos z : 0 < z -> (0 < inject_Z z)%Q.
Proof. intros H. change 0%Q with (inject_Z 0). rewrite <- Zlt_Qlt. exact H. Qed.

(** Significand times unit in the last place, on scaled magnitudes: within
    one binade the significand grows with the magnitude, and across
    binades the power of two between them separates the results. *)
Lemma scaled_rounding_monotone s t :
  (0 <= s)%Q -> (s <= t)%Q ->
  Binary64.nearest_even (s / inject_Z (2 ^ Z.max 0 (Z.log2 (Qfloor s) - 52)))
  * 2 ^ Z.max 0 (Z.log2 (Qfloor s) - 52)
  <= Binary64.nearest_even (t / inject_Z (2 ^ Z.max 0 (Z.log2 (Qfloor t) - 52)))
     * 2 ^ Z.max 0 (Z.log2 (Qfloor t) - 52).
Proof.
  intros Hs Hst.
  pose proof (Qfloor_resp_le _ _ Hs) as F0. change (Qfloor 0) with 0 in F0.
  pose proof (Qfloor_resp_le _ _ Hst) as Fst.
  pose proof (Z.log2_le_mono _ _ Fst) as Lst.
  pose proof (Z.log2_nonneg (Qfloor s)) as Ls0.
  set (Fs := Qfloor s) in *. set (Ft := Qfloor t) in *.
  set (Ls := Z.log2 Fs) in *. set (Lt := Z.log2 Ft) in *.
  set (es := Z.max 0 (Ls - 52)). set (et := Z.max 0 (Lt - 52)).
  assert (0 < 2 ^ es) as Us by (apply Z.pow_pos_nonneg; lia).
  assert (0 < 2 ^ et) as Ut by (apply Z.pow_pos_nonneg; lia).
  destruct (Z.eq_dec es et) as [E|E].
  - rewrite <- E. apply Z.mul_le_mono_nonneg_r; [lia|].
    apply nearest_even_monotone. unfold Qdiv.
    apply Qmult_le_compat_r; [assumption|].
    apply Qlt_le_weak, Qinv_lt_0_compat, inject_Z_pos. assumption.
  - assert (es < et) as Hlt by lia.
    assert (53 <= Lt /\ et = Lt - 52 /\ Ls + 1 <= Lt) as (HLt & Het & HLs) by lia.
    assert (0 < Ft) as Ftpos.
    { destruct (Z_lt_le_dec 0 Ft) as [?|Hn]; [assumption|].
      pose proof (Z.log2_nonpos Ft Hn). lia. }
    apply Z.le_trans with (2 ^ Lt).
    + (* the smaller magnitude rounds to at most the next power of two *)
      apply Z.le_trans with (2 ^ (Ls + 1)); [|apply Z.pow_le_mono_r; lia].
      assert (Fs + 1 <= 2 ^ (Ls + 1)) as HF.
      { destruct (Z.eq_dec Fs 0) as [E0|E0].
        - unfold Ls. rewrite E0. cbn. lia.
        - pose proof (Z.log2_spec Fs ltac:(lia)) as [_ HU].
          fold Ls in HU. replace (Z.succ Ls) with (Ls + 1) in HU by lia. lia. }
      assert (2 ^ (Ls + 1) = 2 ^ (Ls + 1 - es) * 2 ^ es) as Hsplit.
      { rewrite <- Z.pow_add_r by lia. f_equal. lia. }
      rewrite Hsplit. apply Z.mul_le_mono_nonneg_r; [lia|].
      rewrite <- (nearest_even_inject_Z (2 ^ (Ls + 1 - es))).
      apply nearest_even_monotone.
      apply Qle_shift_div_r; [apply inject_Z_pos; assumption|].
      rewrite <- inject_Z_mult, <- Hsplit.
      apply Qle_trans with (inject_Z (Fs + 1)).
      * apply Qlt_le_weak. apply (Qlt_floor s).
      * rewrite <- Zle_Qle. exact HF.
    + (* the larger one rounds to at least the power of two below it *)
      assert (2 ^ Lt = 2 ^ 52 * 2 ^ et) as Hsplit.
      { rewrite <- Z.pow_add_r by lia. f_equal. lia. }
      rewrite Hsplit at 1. apply Z.mul_le_mono_nonneg_r; [lia|].
      rewrite <- (nearest_even_inject_Z (2 ^ 52)).
      apply nearest_even_monotone.
      apply Qle_shift_div_l; [apply inject_Z_pos; assumption|].
      rewrite <- inject_Z_mult, <- Hsplit.
      apply Qle_trans with (inject_Z Ft); [|apply Qfloor_le].
      rewrite <- Zle_Qle. pose proof (Z.log2_spec Ft Ftpos) as [HL _]. exact HL.
Qed.

Lemma magnitude_monotone a b :
  (0 <= a)%Q -> (a <= b)%Q -> (Binary64.magnitude a <= Binary64.magnitude b)%Q.
Proof.
  intros Ha Hab. unfold Binary64.magnitude. cbv zeta.
  pose proof scale_pos as Sp. pose proof (inject_Z_pos _ Sp) as Sq.
  unfold Qdiv. apply Qmult_le_compat_r;
    [|apply Qlt_le_weak, Qinv_lt_0_compat; assumption].
  rewrite <- Zle_Qle. apply Z.min_le_compat_r.
  apply scaled_rounding_monotone.
  - apply Qmult_le_0_compat; lra.
  - apply Qmult_le_compat_r; lra.
Qed.

Lemma magnitude_0 : (Binary64.magnitude 0 == 0)%Q.
Proof. vm_compute. reflexivity. Qed.

Lemma magnitude_nonneg a : (0 <= a)%Q -> (0 <= Binary64.magnitude a)%Q.
Proof.
  intros Ha. rewrite <- magnitude_0. apply magnitude_monotone; lra.
Qed.

(** Rounding keeps the order. *)
Lemma binary64_round_monotone a b :
  (a <= b)%Q -> (Binary64.round a <= Binary64.round b)%Q.
Proof.
  intros H. unfold Binary64.round.
  destruct (Qle_bool 0 a) eqn:Ea; destruct (Qle_bool 0 b) eqn:Eb.
  - apply Qle_bool_iff in Ea. apply magnitude_monotone; assumption.
  - apply Qle_bool_iff in Ea. apply Qle_bool_false in Eb. lra.
  - apply Qle_bool_iff in Eb. apply Qle_bool_false in Ea.
    pose proof (magnitude_nonneg (- a) ltac:(lra)).
    pose proof (magnitude_nonneg b Eb). lra.
  - apply Qle_bool_false in Ea, Eb.
    pose proof (magnitude_monotone (- b) (- a) ltac:(lra) ltac:(lra)). lra.
Qed.

Lemma binary64_round_0 : (Binary64.round 0 == 0)%Q.
Proof. vm_compute. reflexivity. Qed.

Lemma binary64_round_opp x :
  (x <= 0)%Q -> (- Binary64.round x == Binary64.round (- x))%Q.
Proof.
  intros Hx. unfold Binary64.round.
  destruct (Qle_bool 0 x) eqn:E1; destruct (Qle_bool 0 (- x)) eqn:E2.
  - apply Qle_bool_iff in E1.
    pose proof (magnitude_monotone x 0 ltac:(lra) ltac:(lra)).
    pose proof (magnitude_monotone (- x) 0 ltac:(lra) ltac:(lra)).
    pose proof (magnitude_nonneg x ltac:(lra)).
    pose proof (magnitude_nonneg (- x) ltac:(lra)).
    pose proof magnitude_0. lra.
  - apply Qle_bool_iff in E1. apply Qle_bool_false in E2. lra.
  - lra.
  - apply Qle_bool_false in E1, E2. lra.
Qed.

(** The rounding at work: [0.1] and [1/3] as binary64 has them, a tie, the
    smallest subnormal, and overflow. *)
Example binary64_round_examples :
  (Binary64.round (1 # 10) == 3602879701896397 # 36028797018963968)%Q /\
  (Binary64.round (1 # 3) == 6004799503160661 # 18014398509481984)%Q /\
  (Binary64.round (9007199254740993 # 1) == 9007199254740992 # 1)%Q /\
  (Binary64.round (9007199254740995 # 1) == 9007199254740996 # 1)%Q /\
  (Binary64.round (inject_Z 3 / inject_Z (2 ^ 1075)) == inject_Z 2 / inject_Z (2 ^ 1074))%Q /\
  (Binary64.round (- inject_Z (2 ^ 1030)) == - inject_Z (2 ^ 1024))%Q.
Proof. repeat split; vm_compute; reflexivity. Qed.

(** The computed distance [Math.abs(a - b)] grows with the true one. *)
Lemma computed_distance_monotone a b :
  (Qabs a <= Qabs b)%Q ->
  (Qabs (Binary64.round a) <= Qabs (Binary64.round b))%Q.
Proof.
  intros H.
  assert (forall x, (0 <= x)%Q -> Qabs (Binary64.round x) == Binary64.round x)%Q as P.
  { intros x Hx. apply Qabs_pos. pose proof (binary64_round_monotone 0 x Hx).
    pose proof binary64_round_0. lra. }
  assert (forall x, (x <= 0)%Q -> Qabs (Binary64.round x) == Binary64.round (- x))%Q
    as N.
  { intros x Hx. rewrite <- (binary64_round_opp x Hx). apply Qabs_neg.
    pose proof (binary64_round_monotone x 0 Hx). pose proof binary64_round_0. lra. }
  destruct (Qlt_le_dec a 0) as [A|A]; destruct (Qlt_le_dec b 0) as [B|B].
  - rewrite (N a), (N b) by lra.
    apply binary64_round_monotone. rewrite (Qabs_neg a), (Qabs_neg b) in H by lra. exact H.
  - rewrite (N a), (P b) by lra.
    apply binary64_round_monotone. rewrite (Qabs_neg a), (Qabs_pos b) in H by lra. exact H.
  - rewrite (P a), (N b) by lra.
    apply binary64_round_monotone. rewrite (Qabs_pos a), (Qabs_neg b) in H by lra. exact H.
  - rewrite (P a), (P b) by lra.
    apply binary64_round_monotone. rewrite (Qabs_pos a), (Qabs_pos b) in H by lra. exact H.
Qed.

(** A strictly larger computed distance comes from a strictly larger true
    one. *)
Lemma computed_distance_reflects a b :
  (Qabs (Binary64.round a) < Qabs (Binary64.round b))%Q -> (Qabs a < Qabs b)%Q.
Proof.
  intros H. apply Qnot_le_lt. intros L.
  pose proof (computed_distance_monotone b a L). lra.
Qed.

(** ** The return paths of Binary64.findClosestIndex *)

Lemma binary64_located keys q :
  keys <> [] -> ascending keys ->
  located64 keys q (Binary64.findClosestIndex keys (Some q)).
Proof.
  intros Hne Hasc. pose proof (nonempty_length keys Hne) as Hlast.
  destruct (get_in_range keys 0) as [k0 Hk0]; [unfold last_index in *; lia|].
  destruct (get_in_range keys (last_index keys)) as [kn Hkn];
    [unfold last_index in *; lia|].
  unfold Binary64.findClosestIndex. fold (last_index keys). cbv zeta.
  rewrite Hk0, Hkn. unfold Num.ge.
  destruct (Num.le (Some q) (Some k0)) eqn:E0.
  { apply Num_le_Some in E0. eapply at_first64; eauto. }
  apply Qle_bool_false in E0.
  destruct (Num.le (Some kn) (Some q)) eqn:En.
  { apply Num_le_Some in En. eapply at_last64; eauto. }
  apply Qle_bool_false in En.
  pose proof (search_spec keys q Hasc _ 0 (last_index keys) eq_refl
                ltac:(lia) ltac:(lia) ltac:(lia)
                (below_0 keys q) (above_last keys q)) as S.
  destruct (search keys (Some q) 0 (last_index keys)) as [mid|l r] eqn:Es.
  - destruct S as (Hr & km & Hkm & Heq). eapply at_exact64; eauto.
  - destruct S as (Hlr & Hl & Hr & Hb & Ha).
    assert (l <= last_index keys) as Hl'.
    { destruct (Z_le_gt_dec l (last_index keys)); [assumption|].
      specialize (Hb (last_index keys) kn ltac:(lia) Hkn). lra. }
    assert (0 <= r) as Hr'.
    { destruct (Z_le_gt_dec 0 r); [assumption|].
      specialize (Ha 0 k0 ltac:(lia) Hk0). lra. }
    destruct (get_in_range keys l) as [kl Hkl]; [unfold last_index in *; lia|].
    destruct (get_in_range keys r) as [kr Hkr]; [unfold last_index in *; lia|].
    rewrite Hkl, Hkr. cbn [Binary64.sub Num.abs option_map Num.le].
    eapply at_gap64; eauto.
Qed.

(** The rounded and the exact last step give the same index, except that
    the rounded one can return [left] where the exact distances give
    [right]. *)
Lemma binary64_differs_only_in_gap keys q :
  Binary64.findClosestIndex keys (Some q) = findClosestIndex keys (Some q) \/
  exists l r,
    search keys (Some q) 0 (last_index keys) = Fallthrough l r /\
    Binary64.findClosestIndex keys (Some q) = l /\
    findClosestIndex keys (Some q) = r.
Proof.
  unfold Binary64.findClosestIndex, findClosestIndex. fold (last_index keys).
  cbv zeta.
  destruct (Num.le _ _); [left; reflexivity|].
  destruct (Num.ge _ _); [left; reflexivity|].
  destruct (search keys (Some q) 0 (last_index keys)) as [mid|l r];
    [left; reflexivity|].
  destruct (get keys l) as [kl|], (get keys r) as [kr|];
    cbn [Binary64.sub Num.sub Num.abs option_map Num.le]; try (left; reflexivity).
  destruct (Qle_bool (Qabs (kl - q)) (Qabs (kr - q))) eqn:E.
  - apply Qle_bool_iff, computed_distance_monotone, Qle_bool_iff in E.
    rewrite E. left. reflexivity.
  - destruct (Qle_bool (Qabs (Binary64.round (kl - q)))
                       (Qabs (Binary64.round (kr - q)))); [|left; reflexivity].
    right. exists l, r. auto.
Qed.

(** ** C1: the located key is a nearest key *)

(** C1, as the specification states it, fails: the two distances are
    computed in binary64.  For the keys [-3, 4] and the query
    [1/2 - 2^-53] both computed distances are [3.5], the tie goes to
    [left], and the result is index [1], although the key [-3] at index [0]
    is strictly nearer. *)
Lemma nearest_key_fails_in_binary64 :
  let keys := [-3; 4]%Q in
  let q := (4503599627370495 # 9007199254740992)%Q in
  keys <> [] /\ ascending keys /\
  Binary64.findClosestIndex keys (Some q) = 1 /\
  get keys 1 = Some 4%Q /\ get keys 0 = Some (-3)%Q /\
  ~ (Qabs (4 - q) <= Qabs (-3 - q))%Q.
Proof.
  cbv zeta. split; [discriminate|]. split; [reflexivity|].
  split; [vm_compute; reflexivity|]. split; [reflexivity|]. split; [reflexivity|].
  vm_compute. intros H. apply H. reflexivity.
Qed.

(** C1, amended.  For every non-empty ascending key sequence and every real
    query, the index returned is a valid index whose key is closest in
    computed distance: its distance to the query, as the code computes it
    in binary64, is at most the computed distance of the key at any valid
    index [j]. *)
Theorem binary64_nearest_key keys q :
  keys <> [] -> ascending keys ->
  exists kres,
    get keys (Binary64.findClosestIndex keys (Some q)) = Some kres /\
    forall j kj, get keys j = Some kj ->
                 (Qabs (Binary64.round (kres - q))
                  <= Qabs (Binary64.round (kj - q)))%Q.
Proof.
  intros Hne Hasc.
  destruct (binary64_located keys q Hne Hasc)
    as [k0 H0 Hq ->
       |k0 kn H0 Hn Hlo Hhi ->
       |k0 kn km H0 Hn Hlo Hhi Hs Hm Heq
       |k0 kn l r kl kr H0 Hn Hlo Hhi Hs Hlr Hl Hr Hb Ha ->].
  - exists k0. split; [assumption|]. intros j kj Hj.
    apply computed_distance_monotone.
    pose proof (get_Some_range _ _ _ Hj).
    pose proof (ascending_get keys 0 j k0 kj Hasc ltac:(lia) H0 Hj).
    rewrite !Qabs_diff_above; lra.
  - exists kn. split; [assumption|]. intros j kj Hj.
    apply computed_distance_monotone.
    pose proof (get_Some_range _ _ _ Hj).
    pose proof (ascending_get keys j (last_index keys) kj kn Hasc
                  ltac:(unfold last_index; lia) Hj Hn).
    rewrite !Qabs_diff_below; lra.
  - exists km. split; [assumption|]. intros j kj Hj.
    apply computed_distance_monotone.
    rewrite (Qabs_diff_above km q) by lra.
    pose proof (Qabs_nonneg (kj - q)). lra.
  - destruct (Qle_bool _ _) eqn:E.
    + apply Qle_bool_iff in E. exists kl. split; [assumption|]. intros j kj Hj.
      destruct (gap_nearest keys q l r kl kr j kj) as [[[_ D]|[_ D]] _]; auto;
        apply computed_distance_monotone in D; [assumption|].
      eapply Qle_trans; eauto.
    + apply Qle_bool_false in E. exists kr. split; [assumption|]. intros j kj Hj.
      destruct (gap_nearest keys q l r kl kr j kj) as [[[_ D]|[_ D]] _]; auto;
        apply computed_distance_monotone in D; [|assumption].
      eapply Qle_trans; [apply Qlt_le_weak|]; eauto.
Qed.

Lemma binary64_nearest_key_witness :
  exists kres,
    get [-3; 4]%Q
        (Binary64.findClosestIndex [-3; 4]%Q
           (Some (4503599627370495 # 9007199254740992))) = Some kres /\
    forall j kj, get [-3; 4]%Q j = Some kj ->
                 (Qabs (Binary64.round (kres - (4503599627370495 # 9007199254740992)))
                  <= Qabs (Binary64.round (kj - (4503599627370495 # 9007199254740992))))%Q.
Proof.
  apply (binary64_nearest_key [-3; 4]%Q (4503599627370495 # 9007199254740992)).
  - discriminate.
  - reflexivity.
Defined.

(** ** C2: which side of the gap is returned *)

(** C2, as the specification states it, fails in its "otherwise": for the
    keys [-3, 4] and the query [1/2 - 2^-53] the loop exits with [left = 1]
    and [right = 0], the left distance is not at most the right one, and
    yet [left] is returned, both computed distances being [3.5]. *)
Lemma tie_break_otherwise_fails_in_binary64 :
  let keys := [-3; 4]%Q in
  let q := (4503599627370495 # 9007199254740992)%Q in
  keys <> [] /\ ascending keys /\
  Num.lt (get keys 0) (Some q) = true /\
  Num.lt (Some q) (get keys (last_index keys)) = true /\
  existsb (fun k => Qeq_bool k q) keys = false /\
  search keys (Some q) 0 (last_index keys) = Fallthrough 1 0 /\
  ~ (Qabs (4 - q) <= Qabs (-3 - q))%Q /\
  Binary64.findClosestIndex keys (Some q) <> 0.
Proof.
  cbv zeta. split; [discriminate|]. repeat (split; [reflexivity|]).
  split.
  - vm_compute. intros H. apply H. reflexivity.
  - vm_compute. discriminate.
Qed.

(** C2, amended.  For non-empty ascending keys and a query strictly between
    the first and the last key that equals no key, the loop falls through
    with some [left] and [right], both valid indices.  [findClosestIndex]
    returns [left] when the computed distance of [keys[left]] is at most
    the computed distance of [keys[right]], and [right] otherwise.  So it
    returns [left] whenever [|keys[left] - query| <= |keys[right] - query|],
    and when it returns [right] that key is strictly nearer.  When the two
    computed distances are equal the returned key is at least the query. *)
Theorem binary64_tie_break_rule keys q :
  keys <> [] -> ascending keys ->
  Num.lt (get keys 0) (Some q) = true ->
  Num.lt (Some q) (get keys (last_index keys)) = true ->
  existsb (fun k => Qeq_bool k q) keys = false ->
  exists l r kl kr,
    search keys (Some q) 0 (last_index keys) = Fallthrough l r /\
    get keys l = Some kl /\ get keys r = Some kr /\
    ((Qabs (Binary64.round (kl - q)) <= Qabs (Binary64.round (kr - q)))%Q ->
     Binary64.findClosestIndex keys (Some q) = l) /\
    (~ (Qabs (Binary64.round (kl - q)) <= Qabs (Binary64.round (kr - q)))%Q ->
     Binary64.findClosestIndex keys (Some q) = r) /\
    ((Qabs (kl - q) <= Qabs (kr - q))%Q ->
     Binary64.findClosestIndex keys (Some q) = l) /\
    (Binary64.findClosestIndex keys (Some q) = r ->
     (Qabs (kr - q) < Qabs (kl - q))%Q) /\
    ((Qabs (Binary64.round (kl - q)) == Qabs (Binary64.round (kr - q)))%Q ->
     exists kres,
       get keys (Binary64.findClosestIndex keys (Some q)) = Some kres /\
       (q <= kres)%Q).
Proof.
  intros Hne Hasc Hfirst Hlast Hnone.
  destruct (binary64_located keys q Hne Hasc)
    as [k0 H0 Hq _
       |k0 kn H0 Hn Hlo Hhi _
       |k0 kn km H0 Hn Hlo Hhi Hs Hm Heq
       |k0 kn l r kl kr H0 Hn Hlo Hhi Hs Hlr Hl Hr Hb Ha Hres].
  - rewrite H0 in Hfirst. apply Num_lt_Some in Hfirst. lra.
  - rewrite Hn in Hlast. apply Num_lt_Some in Hlast. lra.
  - exfalso. apply not_true_iff_false in Hnone. apply Hnone.
    apply existsb_exists. exists km. split; [|apply Qeq_bool_iff; assumption].
    unfold get in Hm. destruct (_ <? 0); [discriminate|].
    eapply nth_error_In; eauto.
  - exists l, r, kl, kr.
    assert ((Qabs (Binary64.round (kl - q)) <= Qabs (Binary64.round (kr - q)))%Q ->
            Binary64.findClosestIndex keys (Some q) = l) as Hleft.
    { intros Hle. apply Qle_bool_iff in Hle. rewrite Hres, Hle. reflexivity. }
    assert (~ (Qabs (Binary64.round (kl - q)) <= Qabs (Binary64.round (kr - q)))%Q ->
            Binary64.findClosestIndex keys (Some q) = r) as Hright.
    { intros Hnle. rewrite Hres.
      destruct (Qle_bool _ _) eqn:E; [|reflexivity].
      apply Qle_bool_iff in E. contradiction. }
    repeat (split; [assumption|]).
    split; [|split].
    + intros Hle. apply Hleft. apply computed_distance_monotone. exact Hle.
    + intros Hr'. apply computed_distance_reflects.
      apply Qnot_le_lt. intros Hle. specialize (Hleft Hle). lia.
    + intros Htie. exists kl.
      rewrite Hleft by (rewrite Htie; apply Qle_refl).
      split; [assumption|].
      pose proof (Ha l kl ltac:(lia) Hl). lra.
Qed.

Lemma binary64_tie_break_rule_witness :
  exists l r kl kr,
    search [0; 10]%Q (Some 5%Q) 0 (last_index [0; 10]%Q) = Fallthrough l r /\
    get [0; 10]%Q l = Some kl /\ get [0; 10]%Q r = Some kr /\
    ((Qabs (Binary64.round (kl - 5)) <= Qabs (Binary64.round (kr - 5)))%Q ->
     Binary64.findClosestIndex [0; 10]%Q (Some 5%Q) = l) /\
    (~ (Qabs (Binary64.round (kl - 5)) <= Qabs (Binary64.round (kr - 5)))%Q ->
     Binary64.findClosestIndex [0; 10]%Q (Some 5%Q) = r) /\
    ((Qabs (kl - 5) <= Qabs (kr - 5))%Q ->
     Binary64.findClosestIndex [0; 10]%Q (Some 5%Q) = l) /\
    (Binary64.findClosestIndex [0; 10]%Q (Some 5%Q) = r ->
     (Qabs (kr - 5) < Qabs (kl - 5))%Q) /\
    ((Qabs (Binary64.round (kl - 5)) == Qabs (Binary64.round (kr - 5)))%Q ->
     exists kres,
       get [0; 10]%Q (Binary64.findClosestIndex [0; 10]%Q (Some 5%Q)) = Some kres /\
       (5 <= kres)%Q).
Proof.
  apply (binary64_tie_break_rule [0; 10]%Q 5%Q).
  - discriminate.
  - reflexivity.
  - reflexivity.
  - reflexivity.
  - reflexivity.
Defined.

(** ** C3: the tie of the specification's example *)

(** C3, as the specification states it, fails: on [keys = [0, 10]] and
    [query = 5] the result is not index [0]. *)
Lemma tie_example_not_index_0 : findClosestIndex [0; 10]%Q (Some 5%Q) <> 0.
Proof. vm_compute. discriminate. Qed.

(** C3, amended.  [findClosestIndex([0, 10], 5)] returns index [1]: the
    loop falls through with [left = 1] and [right = 0], the two distances
    are equal, and the tie goes to [left], the higher index. *)
Theorem tie_example_index_1 :
  search [0; 10]%Q (Some 5%Q) 0 (last_index [0; 10]%Q) = Fallthrough 1 0 /\
  findClosestIndex [0; 10]%Q (Some 5%Q) = 1.
Proof. split; reflexivity. Qed.

(** ** C5: the two guards *)

(** C5, as the specification states it, fails when every key equals the
    query: the first guard returns before the second is tried, so the
    result is [0] although [query >= keys[last]]. *)
Lemma boundary_last_fails_on_equal_keys :
  [5; 5]%Q <> [] /\ ascending [5; 5]%Q /\
  Num.ge (Some 5%Q) (get [5; 5]%Q (last_index [5; 5]%Q)) = true /\
  findClosestIndex [5; 5]%Q (Some 5%Q) <> last_index [5; 5]%Q.
Proof. repeat split; try discriminate. Qed.

(** C5, amended.  For non-empty ascending keys, [findClosestIndex] returns
    [0] whenever [query <= keys[0]]; it returns the last index whenever
    [query >= keys[last]] and [keys[0] < query]; and a single-element
    sequence always gives [0]. *)
Theorem boundary_clamping keys q :
  keys <> [] -> ascending keys ->
  (Num.le (Some q) (get keys 0) = true ->
   findClosestIndex keys (Some q) = 0) /\
  (Num.ge (Some q) (get keys (last_index keys)) = true ->
   Num.lt (get keys 0) (Some q) = true ->
   findClosestIndex keys (Some q) = last_index keys) /\
  (length keys = 1%nat -> findClosestIndex keys (Some q) = 0).
Proof.
  intros Hne Hasc. unfold findClosestIndex. fold (last_index keys). cbv zeta.
  split; [|split].
  - intros ->. reflexivity.
  - intros Hge Hlt. rewrite Hge.
    destruct (get keys 0) as [k0|]; [|discriminate].
    apply Num_lt_Some in Hlt. apply Qle_bool_false in Hlt.
    cbn [Num.le]. rewrite Hlt. reflexivity.
  - intros Hlen. destruct keys as [|a [|b keys]]; try discriminate.
    cbn. destruct (Qle_bool q a) eqn:E1; [reflexivity|].
    destruct (Qle_bool a q) eqn:E2; [reflexivity|].
    apply Qle_bool_false in E1, E2. lra.
Qed.

Lemma boundary_clamping_witness :
  findClosestIndex [0; 5; 10]%Q (Some (-100)%Q) = 0 /\
  findClosestIndex [0; 5; 10]%Q (Some 1000%Q) = last_index [0; 5; 10]%Q /\
  findClosestIndex [7]%Q (Some 9%Q) = 0.
Proof.
  split; [|split].
  - apply (proj1 (boundary_clamping [0; 5; 10]%Q (-100)%Q
                    ltac:(discriminate) eq_refl)).
    reflexivity.
  - apply (proj1 (proj2 (boundary_clamping [0; 5; 10]%Q 1000%Q
                           ltac:(discriminate) eq_refl))).
    + reflexivity.
    + reflexivity.
  - apply (proj2 (proj2 (boundary_clamping [7]%Q 9%Q
                           ltac:(discriminate) eq_refl))).
    reflexivity.
Defined.

(** ** C6: a query equal to a key *)

(** C6, as the specification states it, fails on duplicated keys: index
    [2] of [[0, 5, 5, 10]] is interior and holds the query [5], yet the
    loop returns at its first probe, [mid = 1]. *)
Lemma exact_match_not_that_index :
  ascending [0; 5; 5; 10]%Q /\
  0 < 2 < last_index [0; 5; 5; 10]%Q /\
  get [0; 5; 5; 10]%Q 2 = Some 5%Q /\
  findClosestIndex [0; 5; 5; 10]%Q (Some 5%Q) <> 2.
Proof. repeat split; discriminate. Qed.

(** C6, amended.  For ascending keys and an interior index [i] whose key
    equals the query, [findClosestIndex] returns an index whose key equals
    the query, and it returns from a guard or from the loop's exact-match
    [return], not from the distance comparison; when the keys are strictly
    ascending the loop returns [i] itself. *)
Theorem exact_match keys q i ki :
  ascending keys ->
  0 < i < last_index keys -> get keys i = Some ki -> (ki == q)%Q ->
  (exists kres, get keys (findClosestIndex keys (Some q)) = Some kres /\
                (kres == q)%Q) /\
  (Num.le (Some q) (get keys 0) = true \/
   Num.ge (Some q) (get keys (last_index keys)) = true \/
   search keys (Some q) 0 (last_index keys)
   = Return (findClosestIndex keys (Some q))) /\
  (strictly_ascending keys ->
   search keys (Some q) 0 (last_index keys) = Return i /\
   findClosestIndex keys (Some q) = i).
Proof.
  intros Hasc Hi Hki Heq.
  assert (keys <> []) as Hne.
  { intros ->. unfold last_index in Hi. cbn in Hi. lia. }
  destruct (findClosestIndex_located keys q Hne Hasc)
    as [k0 H0 Hq Hres
       |k0 kn H0 Hn Hlo Hhi Hres
       |k0 kn km H0 Hn Hlo Hhi Hs Hm Hkm
       |k0 kn l r kl kr H0 Hn Hlo Hhi Hs Hlr Hl Hr Hb Ha Hres].
  - pose proof (ascending_get keys 0 i k0 ki Hasc ltac:(lia) H0 Hki) as Hle.
    rewrite Hres. split; [|split].
    + exists k0. split; [assumption | lra].
    + left. rewrite H0. apply Num_le_Some. assumption.
    + intros Hstrict.
      pose proof (strictly_ascending_get keys 0 i k0 ki Hstrict ltac:(lia) H0 Hki).
      lra.
  - pose proof (ascending_get keys i (last_index keys) ki kn Hasc ltac:(lia) Hki Hn) as Hle.
    rewrite Hres. split; [|split].
    + exists kn. split; [assumption | lra].
    + right. left. rewrite Hn. apply Num_le_Some. assumption.
    + intros Hstrict.
      pose proof (strictly_ascending_get keys i (last_index keys) ki kn Hstrict ltac:(lia) Hki Hn).
      lra.
  - split; [|split].
    + exists km. split; assumption.
    + right. right. assumption.
    + intros Hstrict.
      assert (findClosestIndex keys (Some q) = i) as Hfi.
      { destruct (Z.lt_trichotomy (findClosestIndex keys (Some q)) i)
          as [Hlt|[?|Hgt]]; [|assumption|].
        - pose proof (strictly_ascending_get keys _ i km ki Hstrict Hlt Hm Hki). lra.
        - pose proof (strictly_ascending_get keys i _ ki km Hstrict Hgt Hki Hm). lra. }
      rewrite Hfi in Hs. split; assumption.
  - exfalso. destruct (Z_lt_ge_dec i l) as [Hil|Hil].
    + pose proof (Hb i ki Hil Hki). lra.
    + pose proof (Ha i ki ltac:(lia) Hki). lra.
Qed.

Lemma exact_match_witness :
  (exists kres,
      get [0; 5; 7; 10]%Q (findClosestIndex [0; 5; 7; 10]%Q (Some 7%Q)) = Some kres /\
      (kres == 7)%Q) /\
  search [0; 5; 7; 10]%Q (Some 7%Q) 0 (last_index [0; 5; 7; 10]%Q) = Return 2 /\
  findClosestIndex [0; 5; 7; 10]%Q (Some 7%Q) = 2.
Proof.
  assert (0 < 2 < last_index [0; 5; 7; 10]%Q) as Hi by (vm_compute; split; reflexivity).
  destruct (exact_match [0; 5; 7; 10]%Q 7%Q 2 7%Q eq_refl Hi eq_refl eq_refl)
    as (Hkey & _ & Hstrict).
  split; [exact Hkey|]. apply Hstrict. reflexivity.
Defined.

(** ** C7: monotonicity in the query *)








(** Every located index is a valid index. *)
Lemma located_range keys q res :
  located keys q res -> 0 <= res <= last_index keys.
Proof.
  intros [k0 H0 Hq ->
         |k0 kn H0 Hn Hlo Hhi ->
         |k0 kn km H0 Hn Hlo Hhi Hs Hm Hkm
         |k0 kn l r kl kr H0 Hn Hlo Hhi Hs Hlr Hl Hr Hb Ha ->].
  - apply get_Some_range in H0. unfold last_index. lia.
  - apply get_Some_range in Hn. unfold last_index. lia.
  - apply get_Some_range in Hm. unfold last_index. lia.
  - apply get_Some_range in Hl, Hr. unfold last_index.
    destruct (Qle_bool _ _); lia.
Qed.




(** ** C8: termination, and the range of reads and result *)









(** ** C4: the curve-index fix-up *)

(** The fix-up has a lower clamp only; on an index of the key sequence and
    a path with at least one curve that is enough to stay below the number
    of curves. *)
Lemma closestPathCurve_clamp index segmentCount keyCount :
  0 <= index < keyCount -> 1 <= segmentCount ->
  closestPathCurve index segmentCount keyCount
  = clamp (Z.min index (segmentCount + 1) - Z.abs (segmentCount - keyCount))
          0 (segmentCount - 1).
Proof.
  intros Hi Hs. unfold closestPathCurve, clamp. cbv zeta. lia.
Qed.

(** C4, as the specification states it, fails for a path without curves:
    the single key [7] is located at index [0], and the fix-up gives [0],
    which is neither the clamp into [[0, segmentCount - 1]] nor at most
    [segmentCount - 1]. *)
Lemma curve_index_without_curves :
  let keys := [7]%Q in
  let index := findClosestIndex keys (Some 7%Q) in
  let segmentCount := 0 in
  let delta := Z.abs (segmentCount - Z.of_nat (length keys)) in
  closestPathCurve index segmentCount (Z.of_nat (length keys))
  <> clamp (Z.min index (segmentCount + 1) - delta) 0 (segmentCount - 1)
  /\ ~ closestPathCurve index segmentCount (Z.of_nat (length keys))
       <= segmentCount - 1.
Proof.
  split.
  - vm_compute. discriminate.
  - intros H. vm_compute in H. apply H. reflexivity.
Qed.

(** C4, amended.  For every index located in non-empty ascending keys and
    every path with at least one curve, the corrected segment index equals
    [clamp(min(index, segmentCount + 1) - delta, 0, segmentCount - 1)] with
    [delta = |segmentCount - number of keys|], and so lies between [0] and
    [segmentCount - 1]. *)
Theorem curve_index_correction keys q segmentCount :
  keys <> [] -> ascending keys -> 1 <= segmentCount ->
  let index := findClosestIndex keys (Some q) in
  let delta := Z.abs (segmentCount - Z.of_nat (length keys)) in
  closestPathCurve index segmentCount (Z.of_nat (length keys))
  = clamp (Z.min index (segmentCount + 1) - delta) 0 (segmentCount - 1)
  /\ 0 <= closestPathCurve index segmentCount (Z.of_nat (length keys))
     <= segmentCount - 1.
Proof.
  intros Hne Hasc Hs index delta.
  pose proof (located_range _ _ _ (findClosestIndex_located keys q Hne Hasc)) as R.
  fold index in R. unfold last_index in R.
  split.
  - apply closestPathCurve_clamp; lia.
  - rewrite closestPathCurve_clamp by lia. unfold clamp. lia.
Qed.

Lemma curve_index_correction_witness :
  let index := findClosestIndex [0; 1; 2; 3; 4]%Q (Some (26 # 10)) in
  let delta := Z.abs (3 - Z.of_nat (length [0; 1; 2; 3; 4]%Q)) in
  closestPathCurve index 3 (Z.of_nat (length [0; 1; 2; 3; 4]%Q))
  = clamp (Z.min index (3 + 1) - delta) 0 (3 - 1)
  /\ 0 <= closestPathCurve index 3 (Z.of_nat (length [0; 1; 2; 3; 4]%Q))
     <= 3 - 1.
Proof.
  apply (curve_index_correction [0; 1; 2; 3; 4]%Q (26 # 10) 3).
  - discriminate.
  - reflexivity.
  - lia.
Defined.

(** ** C9 and C10: the end of a gesture *)

Lemma run_app p events1 events2 s :
  run p (events1 ++ events2) s = run p events2 (run p events1 s).
Proof. unfold run. apply fold_left_app. Qed.

(** C9.  Whatever events came before and whatever the shared values were,
    right after the end event [isActive] is [false] and [currentIndex] is
    [-1]. *)
Theorem gesture_end_resets p events s :
  isActive (onEnd s) = false /\
  currentIndex (onEnd s) = Some (-1) /\
  isActive (run p (events ++ [End]) s) = false /\
  currentIndex (run p (events ++ [End]) s) = Some (-1).
Proof.
  rewrite run_app. cbn. repeat split; reflexivity.
Qed.

(** C10.  The end handler writes [isActive] and [currentIndex] only:
    [currentX] (and the calls still waiting for the JS thread) are as they
    were, so the position published by the last move of the gesture is
    still there after its end. *)
Theorem gesture_end_frame p events s x :
  currentX (onEnd s) = currentX s /\
  pending (onEnd s) = pending s /\
  currentX (run p (events ++ [End]) s) = currentX (run p events s) /\
  (parsedPath p <> None ->
   currentX (run p (events ++ [Active x; End]) s)
   = Qmax 0 (if Qle_bool x (width p) then x else width p)).
Proof.
  repeat split; try reflexivity.
  - rewrite run_app. reflexivity.
  - intros Hpath. rewrite run_app. cbn. unfold onActive.
    destruct (parsedPath p); [|congruence].
    destruct (snapToPoint p); reflexivity.
Qed.

Lemma gesture_end_frame_witness :
  let path := {| Redash.move := {| Redash.x := 0; Redash.y := 0 |};
                 Redash.curves := []; Redash.close := false |} in
  let p := {| width := 100; parsedPath := Some path; snapToPoint := false;
              data := []; xDomain := None |} in
  let s := {| currentX := 42; currentIndex := Some 3; isActive := true;
              pending := [] |} in
  currentX (onEnd s) = currentX s /\
  pending (onEnd s) = pending s /\
  currentX (run p ([Active 10] ++ [End]) s) = currentX (run p [Active 10] s) /\
  currentX (run p ([Active 10] ++ [Active 250; End]) s) = 100%Q.
Proof.
  intros path p s.
  destruct (gesture_end_frame p [Active 10] s 250) as (H1 & H2 & H3 & H4).
  split; [exact H1|]. split; [exact H2|]. split; [exact H3|].
  rewrite H4; [reflexivity | discriminate].
Defined.

(** The sentinel is what the end event leaves; a call handed to [runOnJS]
    during the gesture and run by the JS thread after its end still writes
    its index. *)
Remark late_js_call_writes_index :
  let curve := {| Redash.c1 := {| Redash.x := 0; Redash.y := 0 |};
                  Redash.c2 := {| Redash.x := 0; Redash.y := 0 |};
                  Redash.to := {| Redash.x := 100; Redash.y := 0 |} |} in
  let path := {| Redash.move := {| Redash.x := 0; Redash.y := 0 |};
                 Redash.curves := [curve]; Redash.close := false |} in
  let p := {| width := 100; parsedPath := Some path; snapToPoint := true;
              data := [ {| timestamp := 0; value := 1 |};
                        {| timestamp := 1; value := 2 |} ];
              xDomain := None |} in
  let s := {| currentX := 0; currentIndex := Some (-1); isActive := false;
              pending := [] |} in
  currentIndex (run p [Active 60; End] s) = Some (-1) /\
  currentIndex (run p [Active 60; End; JsTurn 0] s) = Some 1.
Proof. split; reflexivity. Qed.

(** * Further properties of the code *)

(** ** findClosestIndex outside its contract *)

Lemma get_nil i : get [] i = None.
Proof.
  unfold get. destruct (i <? 0); [reflexivity|]. destruct (Z.to_nat i); reflexivity.
Qed.

Lemma Num_le_None_r x : Num.le x None = false.
Proof. destruct x; reflexivity. Qed.

Lemma Num_eq_None_r x : Num.eq x None = false.
Proof. destruct x; reflexivity. Qed.

Lemma Num_lt_None_r x : Num.lt x None = false.
Proof. destruct x; reflexivity. Qed.

Lemma findClosestIndex_nil x : findClosestIndex [] x = -1.
Proof.
  unfold findClosestIndex. cbv zeta. rewrite !get_nil.
  unfold Num.ge. rewrite Num_le_None_r. cbn [Num.le length Z.of_nat Z.sub Z.add Z.opp Z.pos_sub].
  rewrite search_while. cbn [Z.leb Z.compare].
  cbn [Num.sub Num.abs option_map Num.le]. reflexivity.
Qed.

(** With a [NaN] query every test of the loop fails, so [right] walks down
    to [left - 1]. *)
Lemma search_nan keys :
  forall n lo hi, Z.to_nat (hi - lo + 1) = n -> lo - 1 <= hi ->
                  search keys None lo hi = Fallthrough lo (lo - 1).
Proof.
  intros n. induction n as [n IH] using lt_wf_ind. intros lo hi Hn Hle.
  rewrite search_while. destruct (Z.leb_spec lo hi) as [L|L].
  - cbv zeta. pose proof (mid_bounds lo hi L).
    rewrite Num_eq_None_r, Num_lt_None_r.
    apply (IH (Z.to_nat (((lo + hi) / 2 - 1) - lo + 1))); lia.
  - f_equal. lia.
Qed.

Lemma findClosestIndex_None keys : findClosestIndex keys None = -1.
Proof.
  unfold findClosestIndex, Num.ge. cbv zeta.
  rewrite Num_le_None_r. cbn [Num.le].
  rewrite (search_nan keys _ 0 (Z.of_nat (length keys) - 1) eq_refl) by lia.
  rewrite Num_le_None_r.
  destruct (get keys 0); reflexivity.
Qed.

(** X1.  On an empty array [findClosestIndex] returns [-1], whatever the
    query: both guards and the last comparison read [undefined], and the
    loop is not entered. *)
Theorem findClosestIndex_empty x : findClosestIndex [] x = -1.
Proof. apply findClosestIndex_nil. Qed.

(** X2.  A [NaN] query gives [-1] on every array: every comparison fails,
    [right] walks down to [-1], and the last comparison returns [right]. *)
Theorem findClosestIndex_nan keys :
  search keys None 0 (last_index keys) = Fallthrough 0 (-1) /\
  findClosestIndex keys None = -1.
Proof.
  split; [|apply findClosestIndex_None].
  apply (search_nan keys _ 0 (last_index keys) eq_refl). unfold last_index. lia.
Qed.

(** The bounds of the loop stay inside the array even when the keys are
    in no order: [left] passes the last index only after reading a last key
    below the query, [right] passes the first only after reading a first
    key above it, and the guards have excluded both. *)
Lemma search_inside keys q k0 kn :
  get keys 0 = Some k0 -> get keys (last_index keys) = Some kn ->
  (k0 < q)%Q -> (q < kn)%Q ->
  forall n lo hi,
    Z.to_nat (hi - lo + 1) = n ->
    0 <= lo <= last_index keys -> 0 <= hi <= last_index keys -> lo <= hi + 1 ->
    match search keys (Some q) lo hi with
    | Return mid => lo <= mid <= hi
    | Fallthrough l r =>
        l = r + 1 /\ 0 <= r /\ l <= last_index keys
    end.
Proof.
  intros H0 Hn Hlo Hhi n. induction n as [n IH] using lt_wf_ind.
  intros lo hi Hm Hl Hh Hle.
  rewrite search_while. destruct (Z.leb_spec lo hi) as [L|L]; [|lia].
  cbv zeta. pose proof (mid_bounds lo hi L) as Hmid.
  set (mid := (lo + hi) / 2) in *.
  destruct (Num.eq (get keys mid) (Some q)); [lia|].
  destruct (Num.lt (get keys mid) (Some q)) eqn:Elt.
  - assert (mid <> last_index keys) as Hne.
    { intros E. rewrite E, Hn in Elt. apply Num_lt_Some in Elt. lra. }
    specialize (IH (Z.to_nat (hi - (mid + 1) + 1)) ltac:(lia) (mid + 1) hi
                   eq_refl ltac:(lia) Hh ltac:(lia)).
    destruct (search keys (Some q) (mid + 1) hi); lia.
  - assert (mid <> 0) as Hne.
    { intros E. rewrite E, H0 in Elt.
      apply not_true_iff_false in Elt. rewrite Num_lt_Some in Elt. tauto. }
    specialize (IH (Z.to_nat ((mid - 1) - lo + 1)) ltac:(lia) lo (mid - 1)
                   eq_refl Hl ltac:(lia) ltac:(lia)).
    destruct (search keys (Some q) lo (mid - 1)); lia.
Qed.

Lemma findClosestIndex_index keys q :
  keys <> [] -> 0 <= findClosestIndex keys (Some q) <= last_index keys.
Proof.
  intros Hne.
  pose proof (nonempty_length keys Hne) as Hlast.
  destruct (get_in_range keys 0) as [k0 H0]; [unfold last_index in *; lia|].
  destruct (get_in_range keys (last_index keys)) as [kn Hn];
    [unfold last_index in *; lia|].
  unfold findClosestIndex. fold (last_index keys). cbv zeta.
  rewrite H0, Hn. unfold Num.ge.
  destruct (Num.le (Some q) (Some k0)) eqn:E0; [lia|].
  destruct (Num.le (Some kn) (Some q)) eqn:En; [lia|].
  apply Qle_bool_false in E0, En.
  pose proof (search_inside keys q k0 kn H0 Hn E0 En _ 0 (last_index keys) eq_refl
                ltac:(lia) ltac:(lia) ltac:(lia)) as S.
  destruct (search keys (Some q) 0 (last_index keys)) as [mid|l r]; [lia|].
  destruct (Num.le _ _); lia.
Qed.




(** ** findClosestIndex on strictly ascending keys *)

(** X4.  Looking up a key finds it: with strictly ascending keys, the
    query [keys[i]] is located at [i], for every index [i], the first and
    the last included. *)
Theorem locate_own_key keys q i ki :
  strictly_ascending keys -> get keys i = Some ki -> (ki == q)%Q ->
  findClosestIndex keys (Some q) = i.
Proof.
  intros Hstrict Hki Heq.
  pose proof (strictly_ascending_ascending keys Hstrict) as Hasc.
  pose proof (get_Some_range _ _ _ Hki) as Hi.
  assert (keys <> []) as Hne by (intros ->; cbn in Hi; lia).
  assert (forall j kj, get keys j = Some kj -> (kj == q)%Q -> j = i) as Huniq.
  { intros j kj Hj Hjq.
    destruct (Z.lt_trichotomy j i) as [Hlt|[?|Hgt]]; [|assumption|].
    - pose proof (strictly_ascending_get keys j i kj ki Hstrict Hlt Hj Hki). lra.
    - pose proof (strictly_ascending_get keys i j ki kj Hstrict Hgt Hki Hj). lra. }
  destruct (findClosestIndex_located keys q Hne Hasc)
    as [k0 H0 Hq Hres
       |k0 kn H0 Hn Hlo Hhi Hres
       |k0 kn km H0 Hn Hlo Hhi Hs Hm Hkm
       |k0 kn l r kl kr H0 Hn Hlo Hhi Hs Hlr Hl Hr Hb Ha Hres].
  - rewrite Hres. apply (Huniq 0 k0 H0).
    pose proof (ascending_get keys 0 i k0 ki Hasc ltac:(lia) H0 Hki). lra.
  - rewrite Hres. apply (Huniq _ kn Hn).
    pose proof (ascending_get keys i (last_index keys) ki kn Hasc
                  ltac:(unfold last_index; lia) Hki Hn). lra.
  - apply (Huniq _ km Hm Hkm).
  - exfalso. destruct (Z_lt_ge_dec i l) as [Hil|Hil].
    + pose proof (Hb i ki Hil Hki). lra.
    + pose proof (Ha i ki ltac:(lia) Hki). lra.
Qed.

Lemma locate_own_key_witness :
  findClosestIndex [0; 5; 7; 10]%Q (Some 10%Q) = 3.
Proof.
  apply (locate_own_key [0; 5; 7; 10]%Q 10%Q 3 10%Q); reflexivity.
Defined.

(** X5.  Between two neighbouring keys, [keys[i] < q < keys[i+1]], the
    result is one of the two: the upper one exactly when its computed
    distance is at most that of the lower one.  So at or above the midpoint
    the result is [i + 1], and whenever the result is [i] the query is
    strictly below the midpoint. *)
Theorem binary64_midpoint_rule keys q i a b :
  ascending keys ->
  get keys i = Some a -> get keys (i + 1) = Some b ->
  (a < q)%Q -> (q < b)%Q ->
  Binary64.findClosestIndex keys (Some q)
  = (if Qle_bool (Qabs (Binary64.round (b - q))) (Qabs (Binary64.round (a - q)))
     then i + 1 else i) /\
  ((a + b <= 2 * q)%Q -> Binary64.findClosestIndex keys (Some q) = i + 1) /\
  (Binary64.findClosestIndex keys (Some q) = i -> (2 * q < a + b)%Q).
Proof.
  intros Hasc Hia Hib Haq Hqb.
  pose proof (get_Some_range _ _ _ Hia) as Hi.
  pose proof (get_Some_range _ _ _ Hib) as Hi'.
  assert (keys <> []) as Hne by (intros ->; cbn in Hi; lia).
  assert (Binary64.findClosestIndex keys (Some q)
          = (if Qle_bool (Qabs (Binary64.round (b - q)))
                         (Qabs (Binary64.round (a - q)))
             then i + 1 else i)) as Hres.
  { destruct (binary64_located keys q Hne Hasc)
      as [k0 H0 Hq Hres
         |k0 kn H0 Hn Hlo Hhi Hres
         |k0 kn km H0 Hn Hlo Hhi Hs Hm Hkm
         |k0 kn l r kl kr H0 Hn Hlo Hhi Hs Hlr Hl Hr Hb Ha Hres].
    - pose proof (ascending_get keys 0 i k0 a Hasc ltac:(lia) H0 Hia). lra.
    - pose proof (ascending_get keys (i + 1) (last_index keys) b kn Hasc
                    ltac:(unfold last_index; lia) Hib Hn). lra.
    - exfalso.
      destruct (Z_le_gt_dec (Binary64.findClosestIndex keys (Some q)) i) as [Hle|Hgt].
      + pose proof (ascending_get keys _ i km a Hasc Hle Hm Hia). lra.
      + pose proof (ascending_get keys (i + 1)
                      (Binary64.findClosestIndex keys (Some q)) b km
                      Hasc ltac:(lia) Hib Hm). lra.
    - assert (r = i) as ->.
      { destruct (Z.lt_trichotomy r i) as [Hlt|[?|Hgt]]; [|assumption|].
        - pose proof (Ha i a Hlt Hia). lra.
        - pose proof (Hb (i + 1) b ltac:(lia) Hib). lra. }
      subst l. rewrite Hia in Hr. injection Hr as <-.
      rewrite Hib in Hl. injection Hl as <-. exact Hres. }
  split; [exact Hres|].
  assert ((a + b <= 2 * q)%Q -> Binary64.findClosestIndex keys (Some q) = i + 1) as Hup.
  { intros Hmid. rewrite Hres.
    assert (Qabs (Binary64.round (b - q)) <= Qabs (Binary64.round (a - q)))%Q as D.
    { apply computed_distance_monotone.
      rewrite (Qabs_diff_above b q), (Qabs_diff_below a q) by lra. lra. }
    apply Qle_bool_iff in D. rewrite D. reflexivity. }
  split; [exact Hup|].
  intros Hlow. apply Qnot_le_lt. intros Hmid. specialize (Hup Hmid). lia.
Qed.

Lemma binary64_midpoint_rule_witness :
  Binary64.findClosestIndex [0; 4; 10; 20]%Q (Some 7%Q)
  = (if Qle_bool (Qabs (Binary64.round (10 - 7))) (Qabs (Binary64.round (4 - 7)))
     then 1 + 1 else 1) /\
  ((4 + 10 <= 2 * 7)%Q -> Binary64.findClosestIndex [0; 4; 10; 20]%Q (Some 7%Q) = 1 + 1) /\
  (Binary64.findClosestIndex [0; 4; 10; 20]%Q (Some 7%Q) = 1 -> (2 * 7 < 4 + 10)%Q).
Proof.
  apply (binary64_midpoint_rule [0; 4; 10; 20]%Q 7%Q 1 4%Q 10%Q); reflexivity.
Defined.

(** ** xValues: the keys the cursor searches *)

Lemma mapi_from_length {A B : Type} (f : A -> Z -> B) i l :
  length (mapi_from f i l) = length l.
Proof.
  revert i. induction l as [|a l IH]; intros i; cbn; [reflexivity|].
  rewrite IH. reflexivity.
Qed.

Lemma get_positions {A : Type} (l : list A) :
  forall k j, 0 <= j < Z.of_nat (length l) ->
              get (mapi_from (fun _ i => inject_Z i) k l) j = Some (inject_Z (k + j)).
Proof.
  induction l as [|a l IH]; intros k j Hj; [cbn in Hj; lia|].
  cbn [mapi_from]. destruct (Z.eq_dec j 0) as [->|Hnz].
  - rewrite get_head. rewrite Z.add_0_r. reflexivity.
  - replace j with ((j - 1) + 1) at 1 by lia.
    rewrite get_cons by lia. rewrite IH by (cbn [length] in Hj; lia).
    do 2 f_equal. lia.
Qed.

Lemma positions_strictly_ascending {A : Type} (l : list A) k :
  strictly_ascendingb (mapi_from (fun _ i => inject_Z i) k l) = true.
Proof.
  revert k. induction l as [|a l IH]; intros k; [reflexivity|].
  specialize (IH (k + 1)). destruct l as [|b l]; [reflexivity|].
  cbn [mapi_from] in *.
  change (negb (Qle_bool (inject_Z (k + 1)) (inject_Z k))
          && strictly_ascendingb
               (inject_Z (k + 1)
                  :: mapi_from (fun (_ : A) (i : Z) => inject_Z i) (k + 1 + 1) l)
          = true).
  apply andb_true_iff. split; [|exact IH].
  apply negb_true_iff, Qle_bool_false. rewrite <- Zlt_Qlt. lia.
Qed.

Lemma xValues_contents p :
  length (xValues p) = length (data p) /\
  (xDomain p = None ->
   strictly_ascending (xValues p) /\
   forall j, 0 <= j < Z.of_nat (length (data p)) ->
             get (xValues p) j = Some (inject_Z j)) /\
  (xDomain p <> None -> xValues p = map timestamp (data p)).
Proof.
  unfold xValues. split; [apply mapi_from_length|]. split.
  - intros ->. split.
    + apply positions_strictly_ascending.
    + intros j Hj. rewrite get_positions by assumption. reflexivity.
  - intros Hd. destruct (xDomain p); [|congruence].
    generalize 0. induction (data p) as [|d l IH]; intros k; cbn; [reflexivity|].
    rewrite IH. reflexivity.
Qed.

(** X6.  What [xValues] holds: one key per datum; the positions
    [0, 1, ..., n-1], strictly ascending, when the chart has no [xDomain];
    the timestamps of the data, in their order, when it has one. *)
Theorem xValues_keys p :
  length (xValues p) = length (data p) /\
  (xDomain p = None ->
   strictly_ascending (xValues p) /\
   forall j, 0 <= j < Z.of_nat (length (data p)) ->
             get (xValues p) j = Some (inject_Z j)) /\
  (xDomain p <> None -> xValues p = map timestamp (data p)).
Proof. apply xValues_contents. Qed.

Lemma xValues_keys_witness :
  let p := {| width := 100; parsedPath := None; snapToPoint := true;
              data := [ {| timestamp := 1700; value := 1 |};
                        {| timestamp := 1800; value := 2 |};
                        {| timestamp := 1950; value := 3 |} ];
              xDomain := None |} in
  let p' := {| width := 100; parsedPath := None; snapToPoint := true;
               data := data p; xDomain := Some (1700, 1950)%Q |} in
  strictly_ascending (xValues p) /\
  get (xValues p) 2 = Some (inject_Z 2) /\
  xValues p' = map timestamp (data p').
Proof.
  intros p p'.
  destruct (xValues_keys p) as (_ & Hpos & _).
  destruct (Hpos eq_refl) as [Hs Hg].
  destruct (xValues_keys p') as (_ & _ & Hts).
  split; [exact Hs|]. split; [apply Hg; cbn; lia|]. apply Hts. discriminate.
Defined.

(** ** Snapping on positions is rounding *)

Lemma floor_unique q z :
  (inject_Z z <= q)%Q -> (q < inject_Z z + 1)%Q -> Qfloor q = z.
Proof.
  intros Hlo Hhi.
  pose proof (Qfloor_le q) as F1. pose proof (Qlt_floor q) as F2.
  rewrite inject_Z_plus in F2. change (inject_Z 1) with 1%Q in F2.
  assert (inject_Z (Qfloor q) < inject_Z (z + 1))%Q as A
      by (rewrite inject_Z_plus; change (inject_Z 1) with 1%Q; lra).
  assert (inject_Z z < inject_Z (Qfloor q + 1))%Q as B
      by (rewrite inject_Z_plus; change (inject_Z 1) with 1%Q; lra).
  rewrite <- Zlt_Qlt in A, B. lia.
Qed.

Lemma round_nearest q z :
  (inject_Z z - (1 # 2) <= q)%Q -> (q < inject_Z z + (1 # 2))%Q -> round q = z.
Proof.
  intros Hlo Hhi. unfold round. apply floor_unique; lra.
Qed.

Lemma round_monotone q1 q2 : (q1 <= q2)%Q -> round q1 <= round q2.
Proof.
  intros H. unfold round. apply Qfloor_resp_le. lra.
Qed.

(** Among the positions [0, ..., n-1] the nearest key, ties upwards, is the
    rounded query, clamped. *)
Lemma located_among_positions p q :
  xDomain p = None -> data p <> [] ->
  findClosestIndex (xValues p) (Some q)
  = Z.max 0 (Z.min (Z.of_nat (length (data p)) - 1) (round q)).
Proof.
  intros Hd Hdata.
  destruct (xValues_contents p) as (Hlen & Hpos & _).
  destruct (Hpos Hd) as [Hstrict Hget]. clear Hpos.
  pose proof (strictly_ascending_ascending _ Hstrict) as Hasc.
  assert (xValues p <> []) as Hne.
  { intros E. rewrite E in Hlen. destruct (data p); [congruence | discriminate]. }
  assert (last_index (xValues p) = Z.of_nat (length (data p)) - 1) as Hlast
      by (unfold last_index; rewrite Hlen; reflexivity).
  pose proof (nonempty_length _ Hne) as Hpos.
  assert (forall j k, get (xValues p) j = Some k -> k = inject_Z j) as Hkey.
  { intros j k Hj. pose proof (get_Some_range _ _ _ Hj) as R.
    rewrite Hlen in R. rewrite (Hget j R) in Hj. congruence. }
  destruct (findClosestIndex_located (xValues p) q Hne Hasc)
    as [k0 H0 Hq Hres
       |k0 kn H0 Hn Hlo Hhi Hres
       |k0 kn km H0 Hn Hlo Hhi Hs Hm Hkm
       |k0 kn l r kl kr H0 Hn Hlo Hhi Hs Hlr Hl Hr Hb Ha Hres].
  - apply Hkey in H0. subst k0. change (inject_Z 0) with 0%Q in Hq.
    pose proof (round_monotone q 0 Hq) as M.
    change (round 0) with 0 in M. lia.
  - apply Hkey in Hn. subst kn.
    pose proof (round_monotone _ q Hhi) as M.
    rewrite (round_nearest (inject_Z (last_index (xValues p))) (last_index (xValues p)))
      in M by lra.
    lia.
  - pose proof (get_Some_range _ _ _ Hm) as R. rewrite Hlen in R.
    apply Hkey in Hm. subst km.
    rewrite (round_nearest q (findClosestIndex (xValues p) (Some q))) by lra.
    lia.
  - pose proof (get_Some_range _ _ _ Hl) as Rl. rewrite Hlen in Rl.
    pose proof (get_Some_range _ _ _ Hr) as Rr. rewrite Hlen in Rr.
    pose proof (Hb r kr ltac:(lia) Hr) as Hrq.
    pose proof (Ha l kl ltac:(lia) Hl) as Hql.
    apply Hkey in Hl, Hr. subst kl kr l.
    rewrite inject_Z_plus in *. change (inject_Z 1) with 1%Q in *.
    rewrite Hres.
    destruct (Qle_bool _ _) eqn:E.
    + apply Qle_bool_iff in E.
      rewrite (Qabs_diff_above (inject_Z r + 1) q),
        (Qabs_diff_below (inject_Z r) q) in E by lra.
      rewrite (round_nearest q (r + 1));
        [lia | rewrite inject_Z_plus | rewrite inject_Z_plus];
        change (inject_Z 1) with 1%Q; lra.
    + apply Qle_bool_false in E.
      rewrite (Qabs_diff_above (inject_Z r + 1) q),
        (Qabs_diff_below (inject_Z r) q) in E by lra.
      rewrite (round_nearest q r) by lra. lia.
Qed.

(** X7.  Without an [xDomain] the keys are the positions, and locating a
    query among them is [Math.round] clamped to the positions:
    [findClosestIndex(xValues, q) = max(0, min(n - 1, round(q)))]. *)
Theorem locate_position_is_round p q :
  xDomain p = None -> data p <> [] ->
  findClosestIndex (xValues p) (Some q)
  = Z.max 0 (Z.min (Z.of_nat (length (data p)) - 1) (round q)).
Proof. apply located_among_positions. Qed.

Lemma locate_position_is_round_witness :
  let p := {| width := 100; parsedPath := None; snapToPoint := true;
              data := [ {| timestamp := 1700; value := 1 |};
                        {| timestamp := 1800; value := 2 |};
                        {| timestamp := 1950; value := 3 |} ];
              xDomain := None |} in
  findClosestIndex (xValues p) (Some (3 # 2))
  = Z.max 0 (Z.min (Z.of_nat (length (data p)) - 1) (round (3 # 2))).
Proof.
  intros p. apply (locate_position_is_round p (3 # 2)).
  - reflexivity.
  - discriminate.
Defined.

(** ** linearScalePositionAndIndex *)




(** X9.  The curve whose end point is read: for an index of the keys,
    a path with one curve fewer than keys gives the curve before the index
    (the one ending at that point), and a path with as many curves as keys
    gives the index itself. *)
Theorem closestPathCurve_usual keys q :
  keys <> [] ->
  let index := findClosestIndex keys (Some q) in
  let n := Z.of_nat (length keys) in
  closestPathCurve index (n - 1) n = Z.max (index - 1) 0 /\
  closestPathCurve index n n = index.
Proof.
  intros Hne index n.
  pose proof (findClosestIndex_index keys q Hne) as R.
  fold index in R. unfold last_index in R. fold n in R.
  unfold closestPathCurve. cbv zeta. lia.
Qed.

Lemma closestPathCurve_usual_witness :
  let index := findClosestIndex [0; 1; 2; 3; 4]%Q (Some (26 # 10)) in
  let n := Z.of_nat (length [0; 1; 2; 3; 4]%Q) in
  closestPathCurve index (n - 1) n = Z.max (index - 1) 0 /\
  closestPathCurve index n n = index.
Proof.
  apply (closestPathCurve_usual [0; 1; 2; 3; 4]%Q (26 # 10)). discriminate.
Defined.

(** ** onActive *)

(** [Math.max(0, x <= width ? x : width)]. *)
Lemma xPosition_clamped x w :
  let xPosition := Qmax 0 (if Qle_bool x w then x else w) in
  (0 <= xPosition)%Q /\
  (0 <= w -> xPosition <= w)%Q /\
  (w <= 0 -> xPosition == 0)%Q /\
  (0 <= x -> x <= w -> xPosition == x)%Q /\
  (x <= 0 -> xPosition == 0)%Q /\
  (0 <= w -> w <= x -> xPosition == w)%Q.
Proof.
  cbv zeta.
  destruct (Q.max_spec 0 (if Qle_bool x w then x else w)) as [[H1 H2]|[H1 H2]];
    destruct (Qle_bool x w) eqn:E;
    try apply Qle_bool_iff in E; try apply Qle_bool_false in E;
    rewrite H2; repeat split; intros; lra.
Qed.




Lemma round_inject_Z z : round (inject_Z z) = z.
Proof. apply round_nearest; lra. Qed.




Lemma round_equal q1 q2 : (q1 == q2)%Q -> round q1 = round q2.
Proof.
  intros H. apply Z.le_antisymm; apply round_monotone; lra.
Qed.



(** X12.  Without [snapToPoint] the two edges select the two ends of the
    data: a touch at or left of [0] publishes index [0], and a touch at or
    right of a positive [width] publishes the last index. *)
Theorem onActive_index_edges p x s :
  parsedPath p <> None -> snapToPoint p = false -> ~ (width p == 0)%Q ->
  ((x <= 0)%Q -> currentIndex (onActive p x s) = Some 0) /\
  ((0 < width p)%Q -> (width p <= x)%Q -> data p <> [] ->
   currentIndex (onActive p x s) = Some (Z.of_nat (length (data p)) - 1)).
Proof.
  intros Hpath Hsnap Hw. unfold onActive.
  destruct (parsedPath p) as [path|]; [|congruence].
  rewrite Hsnap. cbn [currentIndex set_currentIndex]. unfold boundedIndex. cbv zeta.
  destruct (Qeq_bool (width p) 0) eqn:E; [apply Qeq_bool_iff in E; contradiction|].
  pose proof (xPosition_clamped x (width p)) as C. cbv zeta in C.
  destruct C as (_ & _ & _ & _ & C5 & C6).
  split.
  - intros Hx. f_equal.
    rewrite (round_equal _ 0); [reflexivity|].
    rewrite (C5 Hx). unfold Qdiv. rewrite !Qmult_0_l. reflexivity.
  - intros Hpos Hx Hdata. f_equal.
    assert (0 <= Z.of_nat (length (data p)) - 1) as Hn
        by (destruct (data p); [congruence | cbn [length]; lia]).
    set (m := Z.of_nat (length (data p)) - 1) in *.
    rewrite (round_equal _ (inject_Z m)); [rewrite round_inject_Z; lia|].
    rewrite (C6 ltac:(lra) Hx).
    destruct (Z.eq_dec m 0) as [->|Hmz].
    + unfold Qdiv. change (/ inject_Z 0)%Q with 0%Q. rewrite Qmult_0_r.
      change (/ 0)%Q with 0%Q. rewrite Qmult_0_r. reflexivity.
    + assert (0 < inject_Z m)%Q
        by (change 0%Q with (inject_Z 0); rewrite <- Zlt_Qlt; lia).
      field. split; lra.
Qed.

Lemma onActive_index_edges_witness :
  let path := {| Redash.move := {| Redash.x := 0; Redash.y := 0 |};
                 Redash.curves := []; Redash.close := false |} in
  let p := {| width := 100; parsedPath := Some path; snapToPoint := false;
              data := [ {| timestamp := 1700; value := 1 |};
                        {| timestamp := 1800; value := 2 |};
                        {| timestamp := 1950; value := 3 |} ];
              xDomain := None |} in
  let s := {| currentX := 0; currentIndex := Some (-1); isActive := false;
              pending := [] |} in
  currentIndex (onActive p (-5) s) = Some 0 /\
  currentIndex (onActive p 130 s) = Some (Z.of_nat (length (data p)) - 1).
Proof.
  intros path p s.
  assert (parsedPath p <> None) as Hpath by discriminate.
  assert (~ (width p == 0)%Q) as Hw by (vm_compute; discriminate).
  split.
  - apply (proj1 (onActive_index_edges p (-5) s Hpath eq_refl Hw)).
    vm_compute. discriminate.
  - apply (proj2 (onActive_index_edges p 130 s Hpath eq_refl Hw)).
    + reflexivity.
    + vm_compute. discriminate.
    + discriminate.
Defined.



(** ** The shared values over a whole stream of events *)

(** What a call on the JS thread can do to the shared values. *)
Lemma linearScalePositionAndIndex_cases c s s' :
  linearScalePositionAndIndex c s = Some s' ->
  s' = s \/ s' = set_currentIndex (Some (call_closestIndex c)) s.
Proof.
  unfold linearScalePositionAndIndex, call_closestIndex. cbv zeta.
  destruct (call_path c) as [path|]; [|intros [= <-]; left; reflexivity].
  destruct (if 0 <? _ then _ else _); [|discriminate].
  intros [= <-]. right. reflexivity.
Qed.


Lemma runJs_cases k s :
  runJs k s = s \/
  exists c,
    nth_error (pending s) k = Some c /\
    let rest := firstn k (pending s) ++ skipn (S k) (pending s) in
    runJs k s = set_pending rest s \/
    runJs k s = set_currentIndex (Some (call_closestIndex c)) (set_pending rest s).
Proof.
  unfold runJs. destruct (nth_error (pending s) k) as [c|] eqn:E; [|left; reflexivity].
  right. exists c. split; [reflexivity|]. cbv zeta.
  destruct (linearScalePositionAndIndex c _) as [s'|] eqn:L; [|left; reflexivity].
  destruct (linearScalePositionAndIndex_cases _ _ _ L) as [->| ->]; auto.
Qed.





Lemma runJs_frame k s :
  isActive (runJs k s) = isActive s /\ currentX (runJs k s) = currentX s.
Proof.
  destruct (runJs_cases k s) as [->|(c & _ & [->| ->])]; split; reflexivity.
Qed.

Lemma run_js_turns_frame p ks s :
  isActive (run p (map JsTurn ks) s) = isActive s /\
  currentX (run p (map JsTurn ks) s) = currentX s.
Proof.
  revert s. induction ks as [|k ks IH]; intros s; [split; reflexivity|].
  cbn [map]. unfold run in *. cbn [fold_left handle].
  destruct (IH (runJs k s)) as [-> ->]. apply runJs_frame.
Qed.

(** X15.  Calls that reach the JS thread after the end of a gesture write
    at most [currentIndex]: however many of them run, and in whatever
    order, the cursor stays inactive and [currentX] stays where the gesture
    left it. *)
Theorem late_js_calls_keep_inactive p events ks s :
  isActive (run p (events ++ End :: map JsTurn ks) s) = false /\
  currentX (run p (events ++ End :: map JsTurn ks) s)
  = currentX (run p events s).
Proof.
  rewrite run_app.
  change (End :: map JsTurn ks) with ([End] ++ map JsTurn ks).
  rewrite run_app.
  destruct (run_js_turns_frame p ks (run p [End] (run p events s))) as [-> ->].
  split; reflexivity.
Qed.

(** ** Ties and the order of the keys *)

(** X16.  With strictly ascending keys the result is the nearest key with
    the highest index, up to the rounding of the distances: its key is
    strictly closer to the query than every key after it, and its computed
    distance is at most the computed distance of every key before it. *)
Theorem binary64_ties_upwards keys q :
  keys <> [] -> strictly_ascending keys ->
  exists kres,
    get keys (Binary64.findClosestIndex keys (Some q)) = Some kres /\
    (forall j kj, j < Binary64.findClosestIndex keys (Some q) ->
                  get keys j = Some kj ->
                  (Qabs (Binary64.round (kres - q))
                   <= Qabs (Binary64.round (kj - q)))%Q) /\
    (forall j kj, Binary64.findClosestIndex keys (Some q) < j ->
                  get keys j = Some kj ->
                  (Qabs (kres - q) < Qabs (kj - q))%Q).
Proof.
  intros Hne Hstrict.
  pose proof (strictly_ascending_ascending keys Hstrict) as Hasc.
  destruct (binary64_located keys q Hne Hasc)
    as [k0 H0 Hq Hres
       |k0 kn H0 Hn Hlo Hhi Hres
       |k0 kn km H0 Hn Hlo Hhi Hs Hm Hkm
       |k0 kn l r kl kr H0 Hn Hlo Hhi Hs Hlr Hl Hr Hb Ha Hres].
  - rewrite Hres. exists k0. split; [assumption|]. split; intros j kj Hj Hkj.
    + apply get_Some_range in Hkj. lia.
    + pose proof (strictly_ascending_get keys 0 j k0 kj Hstrict Hj H0 Hkj).
      rewrite !Qabs_diff_above; lra.
  - rewrite Hres. exists kn. split; [assumption|]. split; intros j kj Hj Hkj.
    + apply computed_distance_monotone.
      pose proof (strictly_ascending_get keys j (last_index keys) kj kn Hstrict Hj Hkj Hn).
      rewrite !Qabs_diff_below; lra.
    + apply get_Some_range in Hkj. unfold last_index in Hj. lia.
  - exists km. split; [assumption|]. split; intros j kj Hj Hkj.
    + apply computed_distance_monotone.
      rewrite (Qabs_diff_above km q) by lra.
      pose proof (Qabs_nonneg (kj - q)). lra.
    + pose proof (strictly_ascending_get keys _ j km kj Hstrict Hj Hm Hkj).
      rewrite (Qabs_diff_above km q), (Qabs_diff_above kj q); lra.
  - pose proof (Hb r kr ltac:(lia) Hr) as Hrq.
    pose proof (Ha l kl ltac:(lia) Hl) as Hql.
    rewrite Hres.
    destruct (Qle_bool (Qabs (Binary64.round (kl - q)))
                       (Qabs (Binary64.round (kr - q)))) eqn:E.
    + apply Qle_bool_iff in E.
      exists kl. split; [assumption|]. split; intros j kj Hj Hkj.
      * eapply Qle_trans; [exact E|]. apply computed_distance_monotone.
        pose proof (ascending_get keys j r kj kr Hasc ltac:(lia) Hkj Hr).
        rewrite (Qabs_diff_below kr q), (Qabs_diff_below kj q); lra.
      * pose proof (strictly_ascending_get keys l j kl kj Hstrict Hj Hl Hkj).
        rewrite (Qabs_diff_above kl q), (Qabs_diff_above kj q); lra.
    + apply Qle_bool_false in E. apply computed_distance_reflects in E.
      rewrite (Qabs_diff_above kl q), (Qabs_diff_below kr q) in E by lra.
      exists kr. split; [assumption|]. split; intros j kj Hj Hkj.
      * apply computed_distance_monotone.
        pose proof (strictly_ascending_get keys j r kj kr Hstrict Hj Hkj Hr).
        rewrite (Qabs_diff_below kr q), (Qabs_diff_below kj q); lra.
      * pose proof (ascending_get keys l j kl kj Hasc ltac:(lia) Hl Hkj).
        rewrite (Qabs_diff_below kr q), (Qabs_diff_above kj q); lra.
Qed.

Lemma binary64_ties_upwards_witness :
  exists kres,
    get [0; 10; 20]%Q (Binary64.findClosestIndex [0; 10; 20]%Q (Some 5%Q)) = Some kres /\
    (forall j kj, j < Binary64.findClosestIndex [0; 10; 20]%Q (Some 5%Q) ->
                  get [0; 10; 20]%Q j = Some kj ->
                  (Qabs (Binary64.round (kres - 5))
                   <= Qabs (Binary64.round (kj - 5)))%Q) /\
    (forall j kj, Binary64.findClosestIndex [0; 10; 20]%Q (Some 5%Q) < j ->
                  get [0; 10; 20]%Q j = Some kj ->
                  (Qabs (kres - 5) < Qabs (kj - 5))%Q).
Proof.
  apply (binary64_ties_upwards [0; 10; 20]%Q 5%Q).
  - discriminate.
  - reflexivity.
Defined.

(** ** onActive without data *)

(** X18.  Without data and without [snapToPoint], [onActive] still
    publishes index [0], which is no index of the empty data. *)
Theorem onActive_empty_data p x s :
  parsedPath p <> None -> snapToPoint p = false ->
  ~ (width p == 0)%Q -> data p = [] ->
  currentIndex (onActive p x s) = Some 0.
Proof.
  intros Hpath Hsnap Hw Hdata. unfold onActive.
  destruct (parsedPath p) as [path|]; [|congruence].
  rewrite Hsnap. cbn [currentIndex set_currentIndex]. unfold boundedIndex. cbv zeta.
  destruct (Qeq_bool (width p) 0) eqn:E; [apply Qeq_bool_iff in E; contradiction|].
  rewrite Hdata. cbn [length Z.of_nat Z.sub Z.add Z.opp Z.pos_sub].
  pose proof (xPosition_clamped x (width p)) as C. cbv zeta in C.
  destruct C as (C1 & C2 & C3 & _).
  set (xPosition := Qmax 0 (if Qle_bool x (width p) then x else width p)) in *.
  assert (0 <= xPosition / width p)%Q as R.
  { destruct (Qlt_le_dec 0 (width p)) as [Hpos|Hneg].
    - apply Qle_shift_div_l; [assumption | lra].
    - rewrite (C3 Hneg). unfold Qdiv. rewrite Qmult_0_l. lra. }
  assert (xPosition / width p / (1 / inject_Z (-1)) <= 0)%Q as V.
  { assert (xPosition / width p / (1 / inject_Z (-1)) == - (xPosition / width p))%Q
      as -> by (change (inject_Z (-1)) with (-1 # 1)%Q; field; exact Hw).
    lra. }
  apply round_monotone in V. change (round 0) with 0 in V.
  f_equal. lia.
Qed.

Lemma onActive_empty_data_witness :
  let path := {| Redash.move := {| Redash.x := 0; Redash.y := 0 |};
                 Redash.curves := []; Redash.close := false |} in
  let p := {| width := 100; parsedPath := Some path; snapToPoint := false;
              data := []; xDomain := None |} in
  let s := {| currentX := 0; currentIndex := Some (-1); isActive := false;
              pending := [] |} in
  currentIndex (onActive p 70 s) = Some 0.
Proof.
  intros path p s. apply (onActive_empty_data p 70 s).
  - discriminate.
  - reflexivity.
  - discriminate.
  - reflexivity.
Defined.
